(** * duff: entries, checksums and the comparison pipeline (duffentry.c)

    A shallow embedding of [src/duffentry.c].  The C functions work on
    heap-allocated [struct Entry] records through pointers, read files
    through stdio streams and consult two global flags.  The embedding keeps
    all of this explicit:

    - the heap is a finite map from locations to blocks (an entry record, a
      C string, or storage that [malloc] has handed out but nobody has
      written yet), so that aliasing and the freshness of [malloc]/[strdup]
      are visible;
    - the file system is a finite map from path names to files; a file is
      the sequence of bytes that can be read from it together with the way
      the stream ends (a clean end of file, or a read error);
    - every stdio call is recorded in a trace of events, which is how the
      statements "no I/O is performed" and "the file is opened once" are
      expressed;
    - a C function is a computation in a state monad over this world that
      may get stuck (dereferencing a location that holds no such block). *)

From Stdlib Require Import ZArith.
From Stdlib Require Strings.Byte.
From stdpp Require Import gmap gmultiset strings list vector.

Local Open Scope Z_scope.

(** ** Bytes *)

Abbreviation byte := Byte.byte.

#[global] Instance byte_eq_dec : EqDecision byte := Byte.byte_eq_dec.
#[global] Instance byte_inhabited : Inhabited byte := populate Byte.x00.

(** The value of an [unsigned char] converted to [int]. *)
Definition byte_to_int (b : byte) : Z := Z.of_N (Byte.to_N b).

(** stdio's [EOF]. *)
Definition EOF : Z := -1.

(** ** The SHA-1 interface (sha1.h)

    The implementation of SHA-1 is not part of [duffentry.c]; the functions
    of this file are stated against its interface. *)

(** Modelled from the spec: the constant [SHA1_HASH_SIZE] is declared in
    sha1.h, which is not among the sources; the digest is "20 bytes for a
    SHA-1-class fingerprint". *)
Definition SHA1_HASH_SIZE : nat := 20.

Abbreviation digest := (vec byte SHA1_HASH_SIZE).

Class SHA1 := {
  SHA1Context : Type;
  SHA1Init : SHA1Context;
  SHA1Update : SHA1Context → list byte → SHA1Context;
  SHA1Final : SHA1Context → digest
}.

(** ** Entries and the heap *)

Definition loc := positive.

(** Modelled from the spec: the enumeration of the status field is declared
    in duff.h, which is not among the sources; its values are the three the
    code names ([UNTOUCHED], [CHECKSUMMED], [INVALID]), the three the
    specification lists. *)
Inductive Status := UNTOUCHED | CHECKSUMMED | INVALID.

#[global] Instance Status_eq_dec : EqDecision Status.
Proof. solve_decision. Defined.

(** [struct Entry], with the fields [duffentry.c] uses.  [next] and [path]
    are pointers; [checksum] is an array of [SHA1_HASH_SIZE] bytes stored in
    the record itself. *)
Record Entry := mkEntry {
  next : option loc;
  path : loc;
  size : Z;
  status : Status;
  checksum : digest
}.

Definition with_status (s : Status) (e : Entry) : Entry :=
  mkEntry (next e) (path e) (size e) s (checksum e).

Definition with_checksum (d : digest) (e : Entry) : Entry :=
  mkEntry (next e) (path e) (size e) (status e) d.

Inductive block :=
| BUninit
| BEntry (e : Entry)
| BString (s : string).

(** ** Files and stdio streams *)

Inductive stream_end := EndOfFile | ReadError.

(** What reading a file delivers: [contents] and then either the end of
    the file or an error. *)
Record File := mkFile {
  contents : list byte;
  ending : stream_end
}.

(** An open [FILE*]: the name it was opened under, what is still to be
    read, and the error and end-of-file indicators. *)
Record FILE := mkFILE {
  f_name : string;
  f_rest : list byte;
  f_end : stream_end;
  f_error : bool;
  f_eof : bool
}.

Inductive Event :=
| EvOpen (name : string) (ok : bool)
| EvRead (name : string) (n : nat)
| EvClose (name : string)
| EvWarning (name : string).

(** ** The world *)

Record World := mkWorld {
  heap : gmap loc block;
  files : gmap string File;
  trace : list Event;
  (** the flags "defined and documented in duff.c" *)
  quiet_flag : Z;
  thorough_flag : Z
}.

Definition set_heap (f : gmap loc block → gmap loc block) (w : World) : World :=
  mkWorld (f (heap w)) (files w) (trace w) (quiet_flag w) (thorough_flag w).

(** Events are appended in the order in which they happen. *)
Definition log_all (evs : list Event) (w : World) : World :=
  mkWorld (heap w) (files w) (trace w ++ evs) (quiet_flag w) (thorough_flag w).

Definition log (ev : Event) : World → World := log_all [ev].

Definition upd_entry (p : loc) (e : Entry) : World → World :=
  set_heap (<[p := BEntry e]>).

Definition is_open (ev : Event) : bool :=
  match ev with EvOpen _ _ => true | _ => false end.

(** The number of [fopen] calls recorded in a trace. *)
Definition count_opens (evs : list Event) : nat :=
  length (filter (λ ev, is_open ev = true) evs).

(** ** The monad of C computations

    [None] means that the computation has no defined result. *)

Definition M (A : Type) : Type := World → option (A * World).

#[global] Instance M_ret : MRet M := λ A a w, Some (a, w).
#[global] Instance M_bind : MBind M := λ A B k m w,
  match m w with
  | Some (a, w') => k a w'
  | None => None
  end.

Definition stuck {A} : M A := λ _, None.
Definition gets {A} (f : World → A) : M A := λ w, Some (f w, w).
Definition modify (f : World → World) : M unit := λ w, Some (tt, f w).

Definition when (b : bool) (m : M unit) : M unit :=
  if b then m else mret tt.

(** *** Memory *)

Definition load_entry (p : loc) : M Entry := λ w,
  match heap w !! p with
  | Some (BEntry e) => Some (e, w)
  | _ => None
  end.

Definition load_string (p : loc) : M string := λ w,
  match heap w !! p with
  | Some (BString s) => Some (s, w)
  | _ => None
  end.

(** Writing all the fields of an entry whose storage exists. *)
Definition store_entry (p : loc) (e : Entry) : M unit := λ w,
  match heap w !! p with
  | Some (BEntry _) | Some BUninit => Some (tt, upd_entry p e w)
  | _ => None
  end.

(** [entry->status = s] *)
Definition set_status (p : loc) (s : Status) : M unit :=
  e ← load_entry p; store_entry p (with_status s e).

(** Allocation returns a location that is not in use.  Running out of
    memory is not modelled: the C code does not test the results of
    [malloc] and [strdup] either. *)
Definition alloc (b : block) : M loc := λ w,
  let p := fresh (dom (heap w)) in
  Some (p, set_heap (<[p := b]>) w).

Definition malloc : M loc := alloc BUninit.
Definition strdup (s : string) : M loc := alloc (BString s).

Definition free (p : loc) : M unit := λ w,
  match heap w !! p with
  | Some _ => Some (tt, set_heap (delete p) w)
  | None => None
  end.

(** *** stdio *)

Definition fopen (name : string) : M (option FILE) := λ w,
  match files w !! name with
  | Some f =>
      Some (Some (mkFILE name (contents f) (ending f) false false),
            log (EvOpen name true) w)
  | None => Some (None, log (EvOpen name false) w)
  end.

Definition is_error (t : stream_end) : bool :=
  match t with ReadError => true | EndOfFile => false end.

(** [fread(buffer, 1, n, file)]: the bytes read (their number is the
    result of the call) and the stream afterwards.  A short count means that
    the stream has reached its end, which raises one of the indicators. *)
Definition fread (n : nat) (file : FILE) : M (list byte * FILE) := λ w,
  let buffer := take n (f_rest file) in
  let short := bool_decide (length buffer < n)%nat in
  Some ((buffer,
         mkFILE (f_name file) (drop n (f_rest file)) (f_end file)
                (f_error file || (short && is_error (f_end file)))
                (f_eof file || (short && negb (is_error (f_end file))))),
        log (EvRead (f_name file) (length buffer)) w).

(** [fgetc(file)]: the next byte as an [int], or [EOF] both at the end of
    the file and on a read error. *)
Definition fgetc (file : FILE) : M (Z * FILE) := λ w,
  match f_rest file with
  | b :: rest =>
      Some ((byte_to_int b,
             mkFILE (f_name file) rest (f_end file) (f_error file) (f_eof file)),
            log (EvRead (f_name file) 1) w)
  | [] =>
      Some ((EOF,
             mkFILE (f_name file) [] (f_end file)
                    (f_error file || is_error (f_end file))
                    (f_eof file || negb (is_error (f_end file)))),
            log (EvRead (f_name file) 0) w)
  end.

Definition ferror (file : FILE) : bool := f_error file.

Definition fclose (file : FILE) : M unit :=
  modify (log (EvClose (f_name file))).

(** Modelled from the spec: [warning] is defined in another file of the
    repository; it surfaces an I/O failure "to a reporting channel", here
    the trace. *)
Definition warning (name : string) : M unit :=
  modify (log (EvWarning name)).

(** ** The functions of duffentry.c

    In the order of their dependencies: [compare_entry_contents] comes
    before the functions that need the SHA-1 interface. *)

(** [make_entry]: "Allocates and initialises an entry." *)
Definition make_entry (path : string) (size : Z) : M loc :=
  entry ← malloc;
  p ← strdup path;
  store_entry entry
    (mkEntry None p size UNTOUCHED (vreplicate SHA1_HASH_SIZE Byte.x00));;
  mret entry.

Definition copy_entry (entry : loc) : M loc :=
  copy ← malloc;
  e ← load_entry entry;
  s ← load_string (path e);
  p ← strdup s;
  store_entry copy (mkEntry None p (size e) (status e) (checksum e));;
  mret copy.

(** [free_entry]: "Frees an antry and any dynamically allocated members." *)
Definition free_entry (entry : loc) : M unit :=
  e ← load_entry entry;
  free (path e);;
  free entry.

(** [sizeof(buffer)] in [get_entry_checksum]. *)
Definition BUFFER_SIZE : nat := Z.to_nat 8192.

(** [if (!quiet_flag) warning("%s: %s", entry->path, strerror(errno));] *)
Definition report (entry : loc) : M unit :=
  q ← gets quiet_flag;
  when (bool_decide (q = 0))
    (e ← load_entry entry; s ← load_string (path e); warning s).

(** The [do ... while (fc != EOF)] loop of [compare_entry_contents]; the
    value is the local variable [result] when the loop ends. *)
Fixpoint contents_loop (fuel : nat) (first_stream second_stream : FILE)
    : M Z :=
  match fuel with
  | O => stuck
  | S fuel =>
      '(fc, first_stream) ← fgetc first_stream;
      '(sc, second_stream) ← fgetc second_stream;
      if bool_decide (fc ≠ sc) then mret (-1)
      else if bool_decide (fc ≠ EOF) then
        contents_loop fuel first_stream second_stream
      else mret 0
  end.

(** [compare_entry_contents]: "Performs byte-by-byte comparison of the
    contents of two files. [...] NOTE: This function assumes that the files
    are of equal size, as there's little point in calling it otherwise." *)
Definition compare_entry_contents (first second : loc) : M Z :=
  f ← load_entry first;
  fs ← load_string (path f);
  first_stream ← fopen fs;
  s ← load_entry second;
  ss ← load_string (path s);
  second_stream ← fopen ss;
  match first_stream, second_stream with
  | Some first_stream, Some second_stream =>
      result ← contents_loop (S (length (f_rest first_stream)))
                 first_stream second_stream;
      fclose first_stream;;
      fclose second_stream;;
      mret result
  | _, _ =>
      from_option fclose (mret tt) first_stream;;
      from_option fclose (mret tt) second_stream;;
      mret (-1)
  end.

Section Checksums.
Context `{SHA1}.

(** The [for (;;)] loop of [get_entry_checksum].  The result is [None] when
    the loop has left the function with [return -1], and the context when
    it was left with [break].  [fuel] bounds the number of iterations; the
    caller passes more than the stream can take (see [checksum_loop_runs]). *)
Fixpoint checksum_loop (fuel : nat) (entry : loc) (file : FILE)
    (context : SHA1Context) : M (option SHA1Context) :=
  match fuel with
  | O => stuck
  | S fuel =>
      '(buffer, file) ← fread BUFFER_SIZE file;
      if ferror file then
        fclose file;;
        report entry;;
        set_status entry INVALID;;
        mret None
      else if bool_decide (length buffer = 0%nat) then
        mret (Some context)
      else
        checksum_loop fuel entry file (SHA1Update context buffer)
  end.

(** [get_entry_checksum]: "Calculates the checksum of a file, if needed.
    The status field is used to avoid doing this more than once per file
    per execution of duff." *)
Definition get_entry_checksum (entry : loc) : M Z :=
  e ← load_entry entry;
  if bool_decide (status e = INVALID) then mret (-1)
  else if bool_decide (status e ≠ UNTOUCHED) then mret 0
  else
    s ← load_string (path e);
    file ← fopen s;
    match file with
    | None =>
        report entry;;
        set_status entry INVALID;;
        mret (-1)
    | Some file =>
        r ← checksum_loop (S (length (f_rest file))) entry file SHA1Init;
        match r with
        | None => mret (-1)
        | Some context =>
            fclose file;;
            e ← load_entry entry;
            store_entry entry (with_checksum (SHA1Final context) e);;
            set_status entry CHECKSUMMED;;
            mret 0
        end
    end.

(** The [for] loop of [compare_entry_checksums], at index [i] with [n]
    indices to go. *)
Fixpoint checksum_bytes_loop (n i : nat) (first second : digest) : Z :=
  match n with
  | O => 0
  | S n =>
      if bool_decide (vec_to_list first !! i ≠ vec_to_list second !! i)
      then -1
      else checksum_bytes_loop n (S i) first second
  end.

(** [compare_entry_checksums]: "Compares the checksum of two files,
    generating them if neccessary." *)
Definition compare_entry_checksums (first second : loc) : M Z :=
  r ← get_entry_checksum first;
  if bool_decide (r ≠ 0) then mret (-1)
  else
    r ← get_entry_checksum second;
    if bool_decide (r ≠ 0) then mret (-1)
    else
      f ← load_entry first;
      s ← load_entry second;
      mret (checksum_bytes_loop SHA1_HASH_SIZE 0 (checksum f) (checksum s)).

(** [compare_entries]: "This function defines the high-level comparison
    algorithm, using lower level primitives. [...] The general idea is to
    find proof of un-equality as soon and as quickly as possible." *)
Definition compare_entries (first second : loc) : M Z :=
  f ← load_entry first;
  s ← load_entry second;
  if bool_decide (size f ≠ size s) then mret (-1)
  else
    r ← compare_entry_checksums first second;
    if bool_decide (r ≠ 0) then mret (-1)
    else
      t ← gets thorough_flag;
      if bool_decide (t ≠ 0) then
        r ← compare_entry_contents first second;
        if bool_decide (r ≠ 0) then mret (-1) else mret 0
      else mret 0.

End Checksums.

(** ** What the functions compute, as pure functions of the file system *)

Section Results.
Context `{SHA1}.

(** The context after the bytes [data] have gone through [SHA1Update] in
    pieces of [BUFFER_SIZE] bytes, the way [checksum_loop] feeds them. *)
Fixpoint sha1_feed (fuel : nat) (context : SHA1Context) (data : list byte)
    : SHA1Context :=
  match fuel with
  | O => context
  | S fuel =>
      if bool_decide (data = []) then context
      else sha1_feed fuel (SHA1Update context (take BUFFER_SIZE data))
                     (drop BUFFER_SIZE data)
  end.

Definition sha1_of (data : list byte) : digest :=
  SHA1Final (sha1_feed (S (length data)) SHA1Init data).

(** The digest of the file found under a name, if there is a file and it
    can be read to its end. *)
Definition file_digest (f : option File) : option digest :=
  match f with
  | Some (mkFile data EndOfFile) => Some (sha1_of data)
  | _ => None
  end.

(** The entry that [get_entry_checksum] leaves behind, and its result. *)
Definition checksummed (f : option File) (e : Entry) : Entry :=
  match status e with
  | UNTOUCHED =>
      match file_digest f with
      | Some d => with_status CHECKSUMMED (with_checksum d e)
      | None => with_status INVALID e
      end
  | _ => e
  end.

Definition checksum_result (f : option File) (e : Entry) : Z :=
  match status (checksummed f e) with CHECKSUMMED => 0 | _ => -1 end.

End Results.

(** The result of [compare_entry_contents] on the files found under two
    names. *)
Definition contents_result (f s : option File) : Z :=
  match f, s with
  | Some f, Some s => if decide (contents f = contents s) then 0 else -1
  | _, _ => -1
  end.

(** The result of [compare_entry_checksums] on two entries and the files
    found under their paths. *)
Definition checksums_result `{SHA1} (f s : option File) (first second : Entry)
    : Z :=
  if decide (checksum_result f first = 0 ∧ checksum_result s second = 0) then
    if decide (checksum (checksummed f first) = checksum (checksummed s second))
    then 0 else -1
  else -1.

(** The result of [compare_entries], given the value of [thorough_flag]. *)
Definition entries_result `{SHA1} (thorough : Z) (f s : option File)
    (first second : Entry) : Z :=
  if decide (size first ≠ size second) then -1
  else if decide (checksums_result f s first second ≠ 0) then -1
  else if decide (thorough ≠ 0) then
    if decide (contents_result f s ≠ 0) then -1 else 0
  else 0.

(** A file that can be opened and read to its end. *)
Definition readable (f : option File) : Prop :=
  ∃ data, f = Some (mkFile data EndOfFile).

(** A file that cannot be opened, or whose reading ends in an error. *)
Definition unreadable (f : option File) : Prop :=
  f = None ∨ ∃ data, f = Some (mkFile data ReadError).

(** [p] points to an entry [e] whose path is the string [s]. *)
Definition entry_at (w : World) (p : loc) (e : Entry) (s : string) : Prop :=
  heap w !! p = Some (BEntry e) ∧ heap w !! path e = Some (BString s).

(** The order in which the status field may evolve. *)
Definition status_le (s s' : Status) : Prop := s = UNTOUCHED ∨ s = s'.

(** What a call may do to an entry it finds in the heap: nothing but move
    the status forward, and write the digest only on the way from
    [UNTOUCHED] to [CHECKSUMMED]. *)
Definition entry_le (e e' : Entry) : Prop :=
  next e' = next e ∧ path e' = path e ∧ size e' = size e ∧
  status_le (status e) (status e') ∧
  (checksum e' = checksum e ∨
   (status e = UNTOUCHED ∧ status e' = CHECKSUMMED)).

Definition block_le (b b' : block) : Prop :=
  match b, b' with
  | BEntry e, BEntry e' => entry_le e e'
  | _, _ => b = b'
  end.

(** What a call may do to the world: add events to the trace, allocate, and
    move the entries forward. *)
Definition evolves (w w' : World) : Prop :=
  files w' = files w ∧
  quiet_flag w' = quiet_flag w ∧
  thorough_flag w' = thorough_flag w ∧
  (∃ evs, trace w' = trace w ++ evs) ∧
  ∀ a b, heap w !! a = Some b → ∃ b', heap w' !! a = Some b' ∧ block_le b b'.

(** A computation that only moves the world forward, whenever it returns. *)
Definition mono {A} (m : M A) : Prop :=
  ∀ w a w', m w = Some (a, w') → evolves w w'.

(** ** Calls, for statements about every operation *)

Inductive Call :=
| CallMakeEntry (path : string) (size : Z)
| CallCopyEntry (entry : loc)
| CallGetEntryChecksum (entry : loc)
| CallCompareEntryChecksums (first second : loc)
| CallCompareEntryContents (first second : loc)
| CallCompareEntries (first second : loc).

Definition run_call `{SHA1} (c : Call) : M unit :=
  match c with
  | CallMakeEntry path size => make_entry path size;; mret tt
  | CallCopyEntry entry => copy_entry entry;; mret tt
  | CallGetEntryChecksum entry => get_entry_checksum entry;; mret tt
  | CallCompareEntryChecksums first second =>
      compare_entry_checksums first second;; mret tt
  | CallCompareEntryContents first second =>
      compare_entry_contents first second;; mret tt
  | CallCompareEntries first second => compare_entries first second;; mret tt
  end.

Fixpoint run_calls `{SHA1} (cs : list Call) : M unit :=
  match cs with
  | [] => mret tt
  | c :: cs => run_call c;; run_calls cs
  end.

(** ** A small instance of the SHA-1 interface

    A one-byte sum of the input, padded with zeros: enough to run the
    functions on concrete worlds, and weak enough that two inputs with the
    same digest are easy to write down. *)

Definition byte_sum (c : N) (buffer : list byte) : N :=
  foldl (λ a b, ((a + Byte.to_N b) mod 256)%N) c buffer.

Definition sum_digest (c : N) : digest :=
  default Byte.x00 (Byte.of_N c) ::: vreplicate 19 Byte.x00.

Definition sum_sha1 : SHA1 :=
  {| SHA1Context := N; SHA1Init := 0%N;
     SHA1Update := byte_sum; SHA1Final := sum_digest |}.

(** An entry that is still to be checksummed, or that holds the digest of
    the bytes [data]. *)
Definition digest_consistent `{SHA1} (e : Entry) (data : list byte) : Prop :=
  status e = UNTOUCHED ∨ (status e = CHECKSUMMED ∧ checksum e = sha1_of data).

(** ** Concrete worlds *)

Definition zero_digest : digest := vreplicate SHA1_HASH_SIZE Byte.x00.

(** Two entries, at locations 1 and 3, whose paths are the strings "a" and
    "b" at locations 2 and 4. *)
Definition ptr_a : loc := 1%positive.
Definition ptr_b : loc := 3%positive.

Definition two_entries (first second : Entry) : gmap loc block :=
  <[ptr_a := BEntry first]>
    (<[2%positive := BString "a"]>
      (<[ptr_b := BEntry second]>
        (<[4%positive := BString "b"]> ∅))).

Definition entry_a (size : Z) (status : Status) (checksum : digest) : Entry :=
  mkEntry None 2%positive size status checksum.

Definition entry_b (size : Z) (status : Status) (checksum : digest) : Entry :=
  mkEntry None 4%positive size status checksum.

Definition file_ab : File := mkFile [Byte.x61; Byte.x62] EndOfFile.
Definition file_ba : File := mkFile [Byte.x62; Byte.x61] EndOfFile.

(** Files of different sizes, entries not yet checksummed. *)
Definition world_sizes : World :=
  mkWorld (two_entries (entry_a 2 UNTOUCHED zero_digest)
                       (entry_b 1 UNTOUCHED zero_digest))
          (<["a" := file_ab]> (<["b" := mkFile [Byte.x61] EndOfFile]> ∅))
          [] 0 0.

(** The file "a" has disappeared; "b" is there. *)
Definition world_missing : World :=
  mkWorld (two_entries (entry_a 2 UNTOUCHED zero_digest)
                       (entry_b 2 UNTOUCHED zero_digest))
          (<["b" := file_ab]> ∅)
          [] 0 0.

(** Two files of the same size and, under [sum_sha1], the same digest, with
    different contents. *)
Definition world_collision (thorough : Z) : World :=
  mkWorld (two_entries (entry_a 2 UNTOUCHED zero_digest)
                       (entry_b 2 UNTOUCHED zero_digest))
          (<["a" := file_ab]> (<["b" := file_ba]> ∅))
          [] 0 thorough.

(** The same two bytes under both names. *)
Definition world_same (thorough : Z) : World :=
  mkWorld (two_entries (entry_a 2 UNTOUCHED zero_digest)
                       (entry_b 2 UNTOUCHED zero_digest))
          (<["a" := file_ab]> (<["b" := file_ab]> ∅))
          [] 0 thorough.

(** The digest of "a" is known already. *)
Definition world_checksummed : World :=
  mkWorld (two_entries (entry_a 2 CHECKSUMMED (sum_digest 195))
                       (entry_b 2 UNTOUCHED zero_digest))
          (<["a" := file_ab]> (<["b" := file_ba]> ∅))
          [] 0 0.

(** Reading "a" fails after one byte; the entry for "b" is invalid. *)
Definition world_unreadable : World :=
  mkWorld (two_entries (entry_a 2 UNTOUCHED zero_digest)
                       (entry_b 2 INVALID zero_digest))
          (<["a" := mkFile [Byte.x61] ReadError]> (<["b" := file_ab]> ∅))
          [] 0 0.

(** Both entries carry the digest of an earlier run; by now reading either
    file fails after its first byte.  [thorough_flag] is set. *)
Definition world_read_error : World :=
  mkWorld (two_entries (entry_a 2 CHECKSUMMED (sum_digest 195))
                       (entry_b 2 CHECKSUMMED (sum_digest 195)))
          (<["a" := mkFile [Byte.x61] ReadError]>
            (<["b" := mkFile [Byte.x61] ReadError]> ∅))
          [] 0 1.

(** A sequence of calls on the two entries. *)
Definition calls_example : list Call :=
  [CallGetEntryChecksum ptr_a; CallCompareEntries ptr_a ptr_b;
   CallCopyEntry ptr_b; CallMakeEntry "c" 0;
   CallCompareEntryContents ptr_a ptr_b;
   CallCompareEntryChecksums ptr_b ptr_a].

(** ** free_entry_list *)

(** The [while] loop of [free_entry_list], which runs as long as
    [*entries] is not [NULL].  [head] is the value
    of the variable [*entries], which the caller keeps outside the blocks of
    the entries; the result is its value when the loop ends.  In each turn
    the loop reads [entry->next] before it frees the entry. *)
Fixpoint free_entry_list_loop (fuel : nat) (head : option loc)
    : M (option loc) :=
  match fuel with
  | O => stuck
  | S fuel =>
      match head with
      | None => mret None
      | Some entry =>
          e ← load_entry entry;
          free_entry entry;;
          free_entry_list_loop fuel (next e)
      end
  end.

(** [free_entry_list]: "Frees a list of entries.  On exit, the specified
    head is set to NULL."  Every turn of the loop frees blocks, so their
    number in the heap bounds the number of turns (see
    [free_entry_list_loop_runs]). *)
Definition free_entry_list (head : option loc) : M (option loc) := λ w,
  free_entry_list_loop (S (base.size (heap w))) head w.

(** The entries [l], with their locations and path strings, form the list
    that starts at [head] and follows the [next] fields to [NULL]. *)
Fixpoint entry_list (w : World) (head : option loc)
    (l : list (loc * Entry * string)) : Prop :=
  match l with
  | [] => head = None
  | (p, e, s) :: l => head = Some p ∧ entry_at w p e s ∧ entry_list w (next e) l
  end.

(** The blocks of a list: each entry and its path string. *)
Fixpoint list_blocks (l : list (loc * Entry * string)) : list loc :=
  match l with
  | [] => []
  | (p, e, _) :: l => path e :: p :: list_blocks l
  end.

(** ** Counting events *)

Definition is_open_ok (ev : Event) : bool :=
  match ev with EvOpen _ true => true | _ => false end.

Definition is_open_failed (ev : Event) : bool :=
  match ev with EvOpen _ false => true | _ => false end.

Definition is_close (ev : Event) : bool :=
  match ev with EvClose _ => true | _ => false end.

Definition is_warning (ev : Event) : bool :=
  match ev with EvWarning _ => true | _ => false end.

Definition count_events (P : Event → bool) (evs : list Event) : nat :=
  length (filter (λ ev, P ev = true) evs).

(** Whenever [m] returns, started with the flags at [quiet] and [thorough],
    it has left the flags alone and has added to the trace events that,
    with the result, satisfy [Q]. *)
Definition emits {A} (quiet thorough : Z) (m : M A)
    (Q : A → list Event → Prop) : Prop :=
  ∀ w a w',
    quiet_flag w = quiet → thorough_flag w = thorough →
    m w = Some (a, w') →
    quiet_flag w' = quiet ∧ thorough_flag w' = thorough ∧
    ∃ evs, trace w' = trace w ++ evs ∧ Q a evs.

(** The number of warnings a failure gives rise to. *)
Definition reports (quiet : Z) : nat := if decide (quiet = 0) then 1 else 0.

(** The events of a call that has returned [r] and has tried to open at
    most [n] files: every file that was opened has been closed, there is at
    most one warning, and none if [quiet_flag] is set; a call that returns 0
    has met no failure. *)
Definition tidy (quiet : Z) (n : nat) (r : Z) (evs : list Event) : Prop :=
  count_events is_close evs = count_events is_open_ok evs ∧
  (count_opens evs ≤ n)%nat ∧
  (count_events is_warning evs ≤ reports quiet)%nat ∧
  (r = 0 →
   count_events is_warning evs = 0%nat ∧
   count_events is_open_failed evs = 0%nat).

(** ** Streams in the trace

    The streams that are open, by the names they were opened under: a name
    occurs once for every stream on it that [fopen] has returned and
    [fclose] has not been given yet. *)
Abbreviation open_streams := (gmultiset string).

(** What an event does to the open streams.  A read or a close of a stream
    that is not open has no outcome. *)
Definition stream_step (open : open_streams) (ev : Event)
    : option open_streams :=
  match ev with
  | EvOpen name true => Some (open ⊎ {[+ name +]})
  | EvOpen _ false => Some open
  | EvRead name _ => if decide (name ∈ open) then Some open else None
  | EvClose name =>
      if decide (name ∈ open) then Some (open ∖ {[+ name +]}) else None
  | EvWarning _ => Some open
  end.

(** The open streams after the events [evs], started with [open]; [None]
    when some event of [evs] reads or closes a stream that is not open at
    that point. *)
Fixpoint streams (evs : list Event) (open : open_streams)
    : option open_streams :=
  match evs with
  | [] => Some open
  | ev :: evs =>
      match stream_step open ev with
      | Some open => streams evs open
      | None => None
      end
  end.

(** The events use streams properly: each read and each close is of a
    stream that is open, and the streams that are open in the end are those
    that were open before, so that every stream opened in between has been
    closed, once. *)
Definition balanced (evs : list Event) : Prop :=
  ∀ open, streams evs open = Some open.

(** ** Entries across calls *)

(** In the world [w] the files are [fs], the string [s] is where the entry
    [e] has its path, and the location [p] holds [e] as it is or as
    [get_entry_checksum] leaves it. *)
Definition tracked `{SHA1} (fs : gmap string File) (p : loc) (e : Entry)
    (s : string) (w : World) : Prop :=
  files w = fs ∧
  heap w !! path e = Some (BString s) ∧
  (heap w !! p = Some (BEntry e) ∨
   heap w !! p = Some (BEntry (checksummed (fs !! s) e))).

(** A computation that keeps track of the entry, whenever it returns. *)
Definition keeps `{SHA1} {A} (fs : gmap string File) (p : loc) (e : Entry)
    (s : string) (m : M A) : Prop :=
  ∀ w a w', tracked fs p e s w → m w = Some (a, w') → tracked fs p e s w'.

(** A list of two entries: the entry for "a" at location 1 is followed by
    the entry for "b" at location 3; location 5 holds a string that is not
    part of the list. *)
Definition world_list : World :=
  mkWorld (<[5%positive := BString "c"]>
            (two_entries
               (mkEntry (Some ptr_b) 2%positive 2 UNTOUCHED zero_digest)
               (entry_b 2 CHECKSUMMED (sum_digest 195))))
          (<["a" := file_ab]> (<["b" := file_ba]> ∅))
          [] 0 0.

(** Both digests are known and equal; [thorough_flag] is off. *)
Definition world_cached : World :=
  mkWorld (two_entries (entry_a 2 CHECKSUMMED (sum_digest 195))
                       (entry_b 2 CHECKSUMMED (sum_digest 195)))
          (<["a" := file_ab]> (<["b" := file_ba]> ∅))
          [] 0 0.

(** The entries of the list in [world_list]. *)
Definition list_example : list (loc * Entry * string) :=
  [(ptr_a, mkEntry (Some ptr_b) 2%positive 2 UNTOUCHED zero_digest, "a");
   (ptr_b, entry_b 2 CHECKSUMMED (sum_digest 195), "b")].

(** Two empty files. *)
Definition world_empty_files (thorough : Z) : World :=
  mkWorld (two_entries (entry_a 0 UNTOUCHED zero_digest)
                       (entry_b 0 UNTOUCHED zero_digest))
          (<["a" := mkFile [] EndOfFile]> (<["b" := mkFile [] EndOfFile]> ∅))
          [] 0 thorough.

(** * Proofs *)

(** ** Running the monad *)

Lemma bind_run {A B} (m : M A) (k : A → M B) (w : World) :
  (m ≫= k) w = match m w with Some (a, w') => k a w' | None => None end.
Proof. reflexivity. Qed.

Lemma ret_run {A} (a : A) (w : World) : (mret a : M A) w = Some (a, w).
Proof. reflexivity. Qed.

(** Runs the steps that only return a value or write to the trace. *)
Ltac run_stdio :=
  cbv [mbind M_bind mret M_ret fclose warning modify gets when log].

Lemma log_all_nil w : log_all [] w = w.
Proof. destruct w; unfold log_all; simpl. by rewrite app_nil_r. Qed.

Lemma log_all_log_all evs evs' w :
  log_all evs' (log_all evs w) = log_all (evs ++ evs') w.
Proof. unfold log_all; simpl. by rewrite app_assoc. Qed.

Lemma upd_entry_log_all p e evs w :
  log_all evs (upd_entry p e w) = upd_entry p e (log_all evs w).
Proof. reflexivity. Qed.

Lemma upd_entry_id p e w :
  heap w !! p = Some (BEntry e) → upd_entry p e w = w.
Proof.
  intros Hp. destruct w as [h f t q th]; unfold upd_entry, set_heap; simpl in *.
  by rewrite insert_id.
Qed.

Lemma upd_entry_upd_entry p e e' w :
  upd_entry p e' (upd_entry p e w) = upd_entry p e' w.
Proof. unfold upd_entry, set_heap; simpl. by rewrite insert_insert_eq. Qed.

Lemma count_opens_app evs evs' :
  count_opens (evs ++ evs') = (count_opens evs + count_opens evs')%nat.
Proof. unfold count_opens. by rewrite filter_app, length_app. Qed.

Lemma BUFFER_SIZE_pos : (0 < BUFFER_SIZE)%nat.
Proof. unfold BUFFER_SIZE. lia. Qed.

Lemma load_entry_run p e w :
  heap w !! p = Some (BEntry e) → load_entry p w = Some (e, w).
Proof. intros Hp. unfold load_entry. by rewrite Hp. Qed.

Lemma load_string_run p s w :
  heap w !! p = Some (BString s) → load_string p w = Some (s, w).
Proof. intros Hp. unfold load_string. by rewrite Hp. Qed.

Lemma store_entry_run p e e' w :
  heap w !! p = Some (BEntry e) → store_entry p e' w = Some (tt, upd_entry p e' w).
Proof. intros Hp. unfold store_entry. by rewrite Hp. Qed.

Lemma set_status_run p e s w :
  heap w !! p = Some (BEntry e) →
  set_status p s w = Some (tt, upd_entry p (with_status s e) w).
Proof.
  intros Hp. unfold set_status.
  rewrite bind_run, (load_entry_run p e) by done.
  by apply store_entry_run with e.
Qed.

Lemma report_run p e s w :
  entry_at w p e s →
  ∃ evs, count_opens evs = 0%nat ∧ report p w = Some (tt, log_all evs w).
Proof.
  intros [Hp Hs]. unfold report. rewrite bind_run. simpl.
  destruct (bool_decide (quiet_flag w = 0)); simpl.
  - exists [EvWarning s]. split; [done|].
    rewrite bind_run, (load_entry_run p e) by done.
    by rewrite bind_run, (load_string_run _ s) by done.
  - exists []. by rewrite log_all_nil.
Qed.

Lemma entry_at_log_all evs w p e s :
  entry_at (log_all evs w) p e s ↔ entry_at w p e s.
Proof. reflexivity. Qed.

Lemma take_empty_iff {A} (n : nat) (l : list A) :
  (0 < n)%nat → length (take n l) = 0%nat ↔ l = [].
Proof.
  intros Hn. destruct l as [|x l]; [by rewrite take_nil|].
  destruct n; [lia|]. simpl. split; [lia|done].
Qed.

Lemma lookup_upd_entry_eq p e w :
  heap (upd_entry p e w) !! p = Some (BEntry e).
Proof. unfold upd_entry, set_heap; simpl. apply lookup_insert_eq. Qed.

Lemma lookup_upd_entry_ne p q e w :
  p ≠ q → heap (upd_entry p e w) !! q = heap w !! q.
Proof. intros. unfold upd_entry, set_heap; simpl. by apply lookup_insert_ne. Qed.

(** ** The order on worlds *)

Lemma status_le_refl s : status_le s s.
Proof. by right. Qed.

Lemma status_le_trans s1 s2 s3 :
  status_le s1 s2 → status_le s2 s3 → status_le s1 s3.
Proof. intros [->| ->] H23; [by left|done]. Qed.

Lemma entry_le_refl e : entry_le e e.
Proof. repeat split; auto using status_le_refl. Qed.

Lemma entry_le_trans e1 e2 e3 :
  entry_le e1 e2 → entry_le e2 e3 → entry_le e1 e3.
Proof.
  intros (Hn & Hp & Hz & Hs & Hc) (Hn' & Hp' & Hz' & Hs' & Hc').
  repeat split; try congruence; [by eapply status_le_trans|].
  destruct Hc as [Hc|[H1 H2]], Hc' as [Hc'|[H1' H2']].
  - left. congruence.
  - right. split; [|done]. destruct Hs as [?|Hs]; congruence.
  - right. split; [done|]. destruct Hs' as [?|Hs']; congruence.
  - congruence.
Qed.

(** An entry that has left [UNTOUCHED] does not change any more. *)
Lemma entry_le_settled e e' :
  entry_le e e' → status e ≠ UNTOUCHED →
  status e' = status e ∧ checksum e' = checksum e.
Proof.
  intros (_ & _ & _ & [?|Hs] & [Hc|[? _]]) Hne; done.
Qed.

Lemma block_le_refl b : block_le b b.
Proof. destruct b; simpl; auto using entry_le_refl. Qed.

Lemma block_le_trans b1 b2 b3 :
  block_le b1 b2 → block_le b2 b3 → block_le b1 b3.
Proof.
  destruct b1, b2; simpl; try congruence; intros H12;
    destruct b3; simpl; try congruence.
  by apply entry_le_trans.
Qed.

Lemma block_le_entry e b :
  block_le (BEntry e) b → ∃ e', b = BEntry e' ∧ entry_le e e'.
Proof. destruct b; simpl; try done. eauto. Qed.

Lemma block_le_string s b : block_le (BString s) b → b = BString s.
Proof. by destruct b. Qed.

Lemma evolves_refl w : evolves w w.
Proof.
  repeat split; [by exists []; rewrite app_nil_r|].
  intros a b Hb. exists b. auto using block_le_refl.
Qed.

Lemma evolves_trans w1 w2 w3 : evolves w1 w2 → evolves w2 w3 → evolves w1 w3.
Proof.
  intros (Hf & Hq & Ht & [evs Htr] & Hh) (Hf' & Hq' & Ht' & [evs' Htr'] & Hh').
  repeat split; try congruence.
  - exists (evs ++ evs'). by rewrite Htr', Htr, app_assoc.
  - intros a b Hb. destruct (Hh a b Hb) as (b2 & Hb2 & Hle).
    destruct (Hh' a b2 Hb2) as (b3 & Hb3 & Hle').
    exists b3. eauto using block_le_trans.
Qed.

Lemma evolves_log_all evs w : evolves w (log_all evs w).
Proof.
  repeat split; [by exists evs|].
  intros a b Hb. exists b. auto using block_le_refl.
Qed.

Lemma evolves_upd_entry p e e' w :
  heap w !! p = Some (BEntry e) → entry_le e e' → evolves w (upd_entry p e' w).
Proof.
  intros Hp Hle. repeat split; [by exists []; rewrite app_nil_r|].
  intros a b Hb. destruct (decide (p = a)) as [<-|Hne].
  - rewrite lookup_upd_entry_eq. exists (BEntry e'). split; [done|].
    rewrite Hp in Hb. by injection Hb as <-.
  - rewrite lookup_upd_entry_ne by done. exists b. auto using block_le_refl.
Qed.

Lemma evolves_alloc b w :
  evolves w (set_heap (<[fresh (dom (heap w)) := b]>) w).
Proof.
  repeat split; [by exists []; rewrite app_nil_r|].
  intros a b' Hb. simpl. exists b'. split; [|apply block_le_refl].
  rewrite lookup_insert_ne; [done|]. intros <-.
  apply (is_fresh (dom (heap w))). apply elem_of_dom. by exists b'.
Qed.

(** An entry and its path string survive, the entry possibly moved forward. *)
Lemma evolves_entry_at w w' p e s :
  evolves w w' → entry_at w p e s →
  ∃ e', entry_at w' p e' s ∧ entry_le e e'.
Proof.
  intros (_ & _ & _ & _ & Hh) [Hp Hs].
  destruct (Hh _ _ Hp) as (b & Hb & Hle).
  apply block_le_entry in Hle as (e' & -> & Hle).
  destruct (Hh _ _ Hs) as (b & Hb' & ->%block_le_string).
  exists e'. split; [|done]. split; [done|].
  destruct Hle as (_ & -> & _). done.
Qed.

(** ** compare_entry_contents *)

Lemma byte_to_int_inj a b : byte_to_int a = byte_to_int b → a = b.
Proof.
  unfold byte_to_int. intros Hab%N2Z.inj.
  apply (inj Some). by rewrite <- !Byte.of_to_N, Hab.
Qed.

Lemma byte_to_int_not_EOF b : byte_to_int b ≠ EOF.
Proof. unfold byte_to_int, EOF. lia. Qed.

Lemma contents_loop_unfold fuel first_stream second_stream :
  contents_loop (S fuel) first_stream second_stream =
    '(fc, first_stream) ← fgetc first_stream;
    '(sc, second_stream) ← fgetc second_stream;
    if bool_decide (fc ≠ sc) then mret (-1)
    else if bool_decide (fc ≠ EOF) then
      contents_loop fuel first_stream second_stream
    else mret 0.
Proof. reflexivity. Qed.

#[local] Arguments contents_loop : simpl never.

(** The loop ends, given fuel beyond the length of the first stream; it
    returns 0 exactly when the same bytes were left to read on both
    streams, however the streams end. *)
Lemma contents_loop_runs fuel : ∀ first_stream second_stream w,
  (length (f_rest first_stream) < fuel)%nat →
  ∃ evs, count_opens evs = 0%nat ∧
    contents_loop fuel first_stream second_stream w =
      Some (if decide (f_rest first_stream = f_rest second_stream)
            then 0 else -1, log_all evs w).
Proof.
  induction fuel as [|fuel IH]; intros f s w Hlen; [lia|].
  rewrite contents_loop_unfold, bind_run. unfold fgetc at 1.
  destruct f as [fname [|a frest] ftail ferr feof];
    simpl in *; rewrite bind_run; unfold fgetc at 1;
    destruct s as [sname [|b srest] stail serr seof]; simpl.
  - exists [EvRead fname 0; EvRead sname 0]. split; [done|].
    rewrite ret_run. unfold log. by rewrite !log_all_log_all.
  - exists [EvRead fname 0; EvRead sname 1]. split; [done|].
    rewrite bool_decide_eq_true_2
      by (intros Heq; by apply (byte_to_int_not_EOF b)).
    rewrite ret_run. unfold log. by rewrite !log_all_log_all.
  - exists [EvRead fname 1; EvRead sname 0]. split; [done|].
    rewrite bool_decide_eq_true_2 by apply byte_to_int_not_EOF.
    rewrite ret_run. unfold log. by rewrite !log_all_log_all.
  - destruct (decide (a = b)) as [<-|Hne].
    + rewrite bool_decide_eq_false_2 by (intros Hne; by apply Hne).
      rewrite bool_decide_eq_true_2 by apply byte_to_int_not_EOF.
      destruct (IH (mkFILE fname frest ftail ferr feof)
        (mkFILE sname srest stail serr seof)
        (log (EvRead sname 1) (log (EvRead fname 1) w)))
        as (evs & Hevs & ->); [simpl; lia|].
      exists ([EvRead fname 1; EvRead sname 1] ++ evs).
      split; [by rewrite count_opens_app, Hevs|]. simpl.
      unfold log. rewrite !log_all_log_all. simpl.
      destruct (decide (frest = srest)) as [->|Hr].
      * by rewrite decide_True.
      * rewrite decide_False; [done|]. by intros [= ?].
    + exists [EvRead fname 1; EvRead sname 1]. split; [done|].
      rewrite bool_decide_eq_true_2
        by (intros Heq; by apply Hne, byte_to_int_inj).
      rewrite decide_False by (by intros [= ?]).
      rewrite ret_run. unfold log. by rewrite !log_all_log_all.
Qed.

(** The call returns, opens each of the two files once, and changes nothing
    but the trace. *)
Lemma compare_entry_contents_run p q e1 s1 e2 s2 w :
  entry_at w p e1 s1 → entry_at w q e2 s2 →
  ∃ evs, count_opens evs = 2%nat ∧
    compare_entry_contents p q w =
      Some (contents_result (files w !! s1) (files w !! s2), log_all evs w).
Proof.
  intros [Hp Hs1] [Hq Hs2]. unfold compare_entry_contents.
  rewrite bind_run, (load_entry_run p e1) by done.
  rewrite bind_run, (load_string_run _ s1) by done.
  rewrite bind_run. unfold fopen at 1.
  destruct (files w !! s1) as [[d1 t1]|] eqn:Hf1; simpl;
    rewrite bind_run, (load_entry_run q e2) by done;
    rewrite bind_run, (load_string_run _ s2) by done;
    rewrite bind_run; unfold fopen at 1; simpl; rewrite ?Hf1;
    destruct (files w !! s2) as [[d2 t2]|] eqn:Hf2; simpl.
  - rewrite bind_run.
    destruct (contents_loop_runs (S (length d1))
      (mkFILE s1 d1 t1 false false) (mkFILE s2 d2 t2 false false)
      (log (EvOpen s2 true) (log (EvOpen s1 true) w)))
      as (evs & Hevs & ->); [simpl; lia|]. simpl.
    exists ([EvOpen s1 true; EvOpen s2 true] ++ evs ++ [EvClose s1; EvClose s2]).
    split; [by rewrite !count_opens_app, Hevs|].
    run_stdio. by rewrite !log_all_log_all.
  - exists [EvOpen s1 true; EvOpen s2 false; EvClose s1]. split; [done|].
    run_stdio. by rewrite !log_all_log_all.
  - exists [EvOpen s1 false; EvOpen s2 true; EvClose s2]. split; [done|].
    run_stdio. by rewrite !log_all_log_all.
  - exists [EvOpen s1 false; EvOpen s2 false]. split; [done|].
    run_stdio. by rewrite !log_all_log_all.
Qed.

(** ** make_entry and copy_entry *)

Lemma fresh_loc_unused (h : gmap loc block) : h !! fresh (dom h) = None.
Proof. apply not_elem_of_dom, is_fresh. Qed.

Lemma make_entry_run path size w :
  ∃ p p2 w', make_entry path size w = Some (p, w') ∧
    heap w !! p = None ∧ heap w !! p2 = None ∧ p ≠ p2 ∧
    heap w' =
      <[p := BEntry (mkEntry None p2 size UNTOUCHED
                       (vreplicate SHA1_HASH_SIZE Byte.x00))]>
        (<[p2 := BString path]> (heap w)) ∧
    files w' = files w ∧ trace w' = trace w ∧
    quiet_flag w' = quiet_flag w ∧ thorough_flag w' = thorough_flag w.
Proof.
  set (p := fresh (dom (heap w))).
  set (p2 := fresh (dom (<[p := BUninit]> (heap w)))).
  assert (heap w !! p = None) as Hp by apply fresh_loc_unused.
  assert (<[p := BUninit]> (heap w) !! p2 = None) as Hp2
    by apply fresh_loc_unused.
  apply lookup_insert_None in Hp2 as [Hp2 Hne].
  exists p, p2. eexists. split; [|split; [done|split; [done|split; [done|]]]].
  - unfold make_entry, malloc, strdup, alloc.
    rewrite !bind_run. simpl. fold p. fold p2.
    unfold store_entry. simpl.
    rewrite lookup_insert_ne, lookup_insert_eq by done. reflexivity.
  - simpl. repeat split.
    rewrite (insert_insert_ne _ p2 p) by done. by rewrite insert_insert_eq.
Qed.

Lemma copy_entry_run entry e s w :
  entry_at w entry e s →
  ∃ p p2 w', copy_entry entry w = Some (p, w') ∧
    heap w !! p = None ∧ heap w !! p2 = None ∧ p ≠ p2 ∧
    heap w' =
      <[p := BEntry (mkEntry None p2 (size e) (status e) (checksum e))]>
        (<[p2 := BString s]> (heap w)) ∧
    files w' = files w ∧ trace w' = trace w ∧
    quiet_flag w' = quiet_flag w ∧ thorough_flag w' = thorough_flag w.
Proof.
  intros [He Hs].
  set (p := fresh (dom (heap w))).
  set (p2 := fresh (dom (<[p := BUninit]> (heap w)))).
  assert (heap w !! p = None) as Hp by apply fresh_loc_unused.
  assert (<[p := BUninit]> (heap w) !! p2 = None) as Hp2
    by apply fresh_loc_unused.
  apply lookup_insert_None in Hp2 as [Hp2 Hne].
  exists p, p2. eexists. split; [|split; [done|split; [done|split; [done|]]]].
  - unfold copy_entry, malloc, strdup, alloc.
    rewrite !bind_run. simpl. fold p.
    rewrite (load_entry_run entry e)
      by (simpl; rewrite lookup_insert_ne; [done|congruence]).
    rewrite bind_run, (load_string_run _ s)
      by (simpl; rewrite lookup_insert_ne; [done|congruence]).
    rewrite bind_run. simpl. fold p2. rewrite bind_run.
    unfold store_entry. simpl.
    rewrite lookup_insert_ne, lookup_insert_eq by done. reflexivity.
  - simpl. repeat split.
    rewrite (insert_insert_ne _ p2 p) by done. by rewrite insert_insert_eq.
Qed.

Lemma free_entry_run entry e s w :
  entry_at w entry e s →
  free_entry entry w =
    Some (tt, set_heap (delete entry) (set_heap (delete (path e)) w)).
Proof.
  intros [He Hs]. unfold free_entry.
  rewrite bind_run, (load_entry_run entry e) by done.
  rewrite bind_run. unfold free at 1. rewrite Hs.
  unfold free. simpl. rewrite lookup_delete_ne by congruence.
  by rewrite He.
Qed.

(** A world that differs only by two fresh blocks. *)
Lemma evolves_fresh w w' p b p2 b2 :
  heap w !! p = None → heap w !! p2 = None →
  heap w' = <[p := b]> (<[p2 := b2]> (heap w)) →
  files w' = files w → trace w' = trace w →
  quiet_flag w' = quiet_flag w → thorough_flag w' = thorough_flag w →
  evolves w w'.
Proof.
  intros Hp Hp2 Hh Hf Ht Hq Hth. repeat split; try done.
  - exists []. by rewrite app_nil_r.
  - intros a ba Ha. exists ba. split; [|apply block_le_refl].
    rewrite Hh, !lookup_insert_ne by congruence. done.
Qed.

(** ** Calls move the world forward *)

Create HintDb mono.

Lemma mono_ret {A} (a : A) : mono (mret a).
Proof. intros w a' w' [= <- <-]. apply evolves_refl. Qed.

Lemma mono_bind {A B} (m : M A) (k : A → M B) :
  mono m → (∀ a, mono (k a)) → mono (m ≫= k).
Proof.
  intros Hm Hk w b w'. rewrite bind_run.
  destruct (m w) as [[a w1]|] eqn:Hmw; [|done]. intros Hkw.
  eapply evolves_trans; [by eapply Hm|by eapply Hk].
Qed.

Lemma mono_stuck {A} : mono (@stuck A).
Proof. by intros w a w'. Qed.

Lemma mono_gets {A} (f : World → A) : mono (gets f).
Proof. intros w a w' [= <- <-]. apply evolves_refl. Qed.

Lemma mono_load_entry p : mono (load_entry p).
Proof.
  intros w a w'. unfold load_entry.
  destruct (heap w !! p) as [[]|]; intros [= <- <-]. apply evolves_refl.
Qed.

Lemma mono_load_string p : mono (load_string p).
Proof.
  intros w a w'. unfold load_string.
  destruct (heap w !! p) as [[]|]; intros [= <- <-]. apply evolves_refl.
Qed.

Lemma mono_log ev : mono (modify (log ev)).
Proof. intros w a w' [= <- <-]. apply evolves_log_all. Qed.

Lemma mono_fclose file : mono (fclose file).
Proof. apply mono_log. Qed.

Lemma mono_warning name : mono (warning name).
Proof. apply mono_log. Qed.

Lemma mono_fopen name : mono (fopen name).
Proof.
  intros w a w'. unfold fopen.
  destruct (files w !! name); intros [= <- <-]; apply evolves_log_all.
Qed.

Lemma mono_fread n file : mono (fread n file).
Proof. intros w a w' [= <- <-]. apply evolves_log_all. Qed.

Lemma mono_fgetc file : mono (fgetc file).
Proof.
  intros w a w'. unfold fgetc.
  destruct (f_rest file); intros [= <- <-]; apply evolves_log_all.
Qed.

Lemma mono_when b m : mono m → mono (when b m).
Proof. destruct b; [done|]. intros _. apply mono_ret. Qed.

Lemma mono_fclose_if_open (stream : option FILE) :
  mono (from_option fclose (mret tt) stream).
Proof. destruct stream; [apply mono_fclose|apply mono_ret]. Qed.

#[local] Hint Resolve mono_ret mono_stuck mono_gets mono_load_entry
  mono_load_string mono_log mono_fclose mono_warning mono_fopen mono_fread
  mono_fgetc mono_fclose_if_open : mono.

(** Goes through a computation along its binds and branches. *)
Ltac solve_mono :=
  repeat first
    [ solve [auto with mono]
    | apply mono_bind; [|intros ?]
    | apply mono_when
    | match goal with
      | |- mono (match ?x with _ => _ end) => destruct x
      end ].

Lemma mono_report entry : mono (report entry).
Proof. unfold report. solve_mono. Qed.

Lemma mono_contents_loop fuel : ∀ first_stream second_stream,
  mono (contents_loop fuel first_stream second_stream).
Proof.
  induction fuel as [|fuel IH]; intros f s; [apply mono_stuck|].
  rewrite contents_loop_unfold. solve_mono.
Qed.

Lemma mono_compare_entry_contents first second :
  mono (compare_entry_contents first second).
Proof.
  pose proof mono_contents_loop.
  unfold compare_entry_contents. solve_mono.
Qed.

Lemma mono_make_entry path size : mono (make_entry path size).
Proof.
  intros w a w' Hrun.
  destruct (make_entry_run path size w)
    as (p & p2 & w1 & Hrun' & Hp & Hp2 & _ & Hh & Hf & Ht & Hq & Hth).
  rewrite Hrun in Hrun'. injection Hrun' as -> ->.
  by apply (evolves_fresh _ _ _ _ _ _ Hp Hp2 Hh).
Qed.

Lemma mono_copy_entry entry : mono (copy_entry entry).
Proof.
  intros w a w' Hrun.
  assert (∃ e s, entry_at w entry e s) as (e & s & Hat).
  { revert Hrun. unfold copy_entry, malloc, alloc.
    rewrite bind_run. simpl. rewrite bind_run. unfold load_entry at 1. simpl.
    destruct (decide (fresh (dom (heap w)) = entry)) as [<-|Hne];
      [by rewrite lookup_insert_eq|].
    rewrite lookup_insert_ne by done.
    destruct (heap w !! entry) as [[|e|]|] eqn:He; try done.
    rewrite bind_run. unfold load_string at 1. simpl.
    destruct (decide (fresh (dom (heap w)) = path e)) as [<-|Hne'];
      [by rewrite lookup_insert_eq|].
    rewrite lookup_insert_ne by done.
    destruct (heap w !! path e) as [[| |s]|] eqn:Hs; try done.
    intros _. by exists e, s. }
  destruct (copy_entry_run entry e s w Hat)
    as (p & p2 & w1 & Hrun' & Hp & Hp2 & _ & Hh & Hf & Ht & Hq & Hth).
  rewrite Hrun in Hrun'. injection Hrun' as -> ->.
  by apply (evolves_fresh _ _ _ _ _ _ Hp Hp2 Hh).
Qed.

#[local] Hint Resolve mono_report mono_compare_entry_contents mono_make_entry
  mono_copy_entry : mono.

#[local] Opaque BUFFER_SIZE.

Section Proofs.
Context `{SHA1}.

Lemma checksum_loop_unfold fuel entry file context :
  checksum_loop (S fuel) entry file context =
    '(buffer, file) ← fread BUFFER_SIZE file;
    if ferror file then
      fclose file;; report entry;; set_status entry INVALID;; mret None
    else if bool_decide (length buffer = 0%nat) then mret (Some context)
    else checksum_loop fuel entry file (SHA1Update context buffer).
Proof. reflexivity. Qed.

#[local] Arguments checksum_loop : simpl never.

(** ** get_entry_checksum *)

(** The loop ends for every stream, given fuel beyond the length of what is
    left to read: with [break] and the accumulated context when the stream
    ends cleanly, with [return -1] and the entry marked invalid when it ends
    in an error.  It opens no file. *)
Lemma checksum_loop_runs p e s fuel : ∀ file context w,
  entry_at w p e s →
  (length (f_rest file) < fuel)%nat →
  f_error file = false →
  ∃ evs, count_opens evs = 0%nat ∧
    checksum_loop fuel p file context w =
      Some (match f_end file with
            | EndOfFile =>
                (Some (sha1_feed fuel context (f_rest file)), log_all evs w)
            | ReadError =>
                (None, upd_entry p (with_status INVALID e) (log_all evs w))
            end).
Proof.
  induction fuel as [|fuel IH]; intros file context w Hat Hlen Herr; [lia|].
  pose proof BUFFER_SIZE_pos as Hpos.
  destruct file as [name rest tail err eof]; simpl in *; subst err.
  rewrite checksum_loop_unfold, bind_run. unfold fread; simpl.
  set (buffer := take BUFFER_SIZE rest).
  destruct (decide (length buffer < BUFFER_SIZE)%nat) as [Hshort|Hfull].
  - rewrite (bool_decide_eq_true_2 _ Hshort); simpl.
    assert (drop BUFFER_SIZE rest = []) as Hdrop.
    { apply drop_ge. subst buffer. rewrite length_take in Hshort. lia. }
    destruct tail; simpl.
    + (* the end of the file *)
      destruct (decide (length buffer = 0%nat)) as [Hz|Hnz].
      * rewrite (bool_decide_eq_true_2 _ Hz).
        apply take_empty_iff in Hz as ->; [|done].
        exists [EvRead name 0]. split; [done|]. by rewrite ret_run.
      * rewrite (bool_decide_eq_false_2 _ Hnz).
        assert (rest ≠ []) as Hne.
        { intros ->. by subst buffer. }
        rewrite (bool_decide_eq_false_2 _ Hne), Hdrop.
        destruct fuel as [|fuel]; [destruct rest; simpl in *; [done|lia]|].
        exists [EvRead name (length buffer); EvRead name 0]. split; [done|].
        rewrite checksum_loop_unfold, bind_run. unfold fread; simpl.
        rewrite take_nil, drop_nil. simpl.
        rewrite (bool_decide_eq_true_2 (0 < BUFFER_SIZE)%nat) by done. simpl.
        rewrite ret_run. unfold log. by rewrite !log_all_log_all.
    + (* a read error *)
      rewrite bind_run. unfold fclose, modify; simpl.
      rewrite bind_run.
      destruct (report_run p e s
        (log (EvClose name) (log (EvRead name (length buffer)) w)))
        as (evs & Hevs & ->); [done|].
      rewrite bind_run, (set_status_run p e) by apply Hat.
      exists ([EvRead name (length buffer); EvClose name] ++ evs).
      split; [by rewrite count_opens_app, Hevs|].
      rewrite ret_run. unfold log. by rewrite !log_all_log_all.
  - rewrite (bool_decide_eq_false_2 _ Hfull); simpl.
    assert (length buffer = BUFFER_SIZE) as Hb.
    { pose proof (length_take_le rest BUFFER_SIZE).
      subst buffer. rewrite length_take in *. lia. }
    rewrite bool_decide_eq_false_2 by lia. rewrite orb_false_r.
    assert (rest ≠ []) as Hne.
    { intros ->. subst buffer. rewrite take_nil in Hb. simpl in Hb. lia. }
    set (file' := mkFILE name (drop BUFFER_SIZE rest) tail false eof).
    destruct (IH file' (SHA1Update context buffer)
      (log (EvRead name (length buffer)) w)) as (evs & Hevs & ->);
      [done| |done|].
    { simpl. rewrite length_drop.
      subst buffer. rewrite length_take in Hb. lia. }
    exists (EvRead name (length buffer) :: evs). split; [done|].
    rewrite (bool_decide_eq_false_2 _ Hne). simpl. unfold log.
    by rewrite !log_all_log_all.
Qed.

Lemma get_entry_checksum_invalid p e w :
  heap w !! p = Some (BEntry e) → status e = INVALID →
  get_entry_checksum p w = Some (-1, w).
Proof.
  intros Hp Hst. unfold get_entry_checksum.
  rewrite bind_run, (load_entry_run p e), Hst by done. reflexivity.
Qed.

Lemma get_entry_checksum_checksummed p e w :
  heap w !! p = Some (BEntry e) → status e = CHECKSUMMED →
  get_entry_checksum p w = Some (0, w).
Proof.
  intros Hp Hst. unfold get_entry_checksum.
  rewrite bind_run, (load_entry_run p e), Hst by done. reflexivity.
Qed.

Lemma get_entry_checksum_untouched p e s w :
  entry_at w p e s → status e = UNTOUCHED →
  ∃ evs, count_opens evs = 1%nat ∧
    get_entry_checksum p w =
      Some (checksum_result (files w !! s) e,
            upd_entry p (checksummed (files w !! s) e) (log_all evs w)).
Proof.
  intros Hat Hst. pose proof Hat as [Hp Hs].
  unfold get_entry_checksum, checksum_result, checksummed.
  rewrite bind_run, (load_entry_run p e), Hst by done. simpl.
  rewrite bind_run, (load_string_run _ s) by done.
  rewrite bind_run. unfold fopen.
  destruct (files w !! s) as [[data tail]|] eqn:Hf; simpl.
  - rewrite bind_run.
    destruct (checksum_loop_runs p e s (S (length data))
      (mkFILE s data tail false false) SHA1Init (log (EvOpen s true) w))
      as (evs & Hevs & ->); [done|simpl; lia|done|].
    destruct tail; simpl.
    + rewrite bind_run. unfold fclose, modify. simpl.
      rewrite bind_run, (load_entry_run p e) by done.
      rewrite bind_run, (store_entry_run p e) by done.
      rewrite bind_run, (set_status_run p (with_checksum _ e))
        by apply lookup_upd_entry_eq.
      rewrite ret_run, upd_entry_upd_entry.
      exists ([EvOpen s true] ++ evs ++ [EvClose s]). split.
      { by rewrite !count_opens_app, Hevs. }
      unfold log. by rewrite !log_all_log_all.
    + rewrite ret_run. exists ([EvOpen s true] ++ evs). split.
      { by rewrite !count_opens_app, Hevs. }
      unfold log. by rewrite !log_all_log_all.
  - rewrite bind_run.
    destruct (report_run p e s (log (EvOpen s false) w))
      as (evs & Hevs & ->); [done|].
    rewrite bind_run, (set_status_run p e) by done. rewrite ret_run.
    exists ([EvOpen s false] ++ evs). split.
    { by rewrite !count_opens_app, Hevs. }
    unfold log. by rewrite !log_all_log_all.
Qed.

(** In every state of the entry the call returns, changes nothing but the
    entry itself, and opens the file at most once. *)
Lemma get_entry_checksum_run p e s w :
  heap w !! p = Some (BEntry e) →
  (status e = UNTOUCHED → heap w !! path e = Some (BString s)) →
  ∃ evs, count_opens evs = (if decide (status e = UNTOUCHED) then 1 else 0)%nat ∧
    get_entry_checksum p w =
      Some (checksum_result (files w !! s) e,
            upd_entry p (checksummed (files w !! s) e) (log_all evs w)).
Proof.
  intros Hp Hs. destruct (status e) eqn:Hst.
  - rewrite decide_True by done.
    apply get_entry_checksum_untouched; [split; auto|done].
  - exists []. split; [done|].
    rewrite (get_entry_checksum_checksummed p e) by done.
    unfold checksum_result, checksummed. rewrite !Hst.
    by rewrite log_all_nil, upd_entry_id.
  - exists []. split; [done|].
    rewrite (get_entry_checksum_invalid p e) by done.
    unfold checksum_result, checksummed. rewrite !Hst.
    by rewrite log_all_nil, upd_entry_id.
Qed.

Lemma checksummed_le f e : entry_le e (checksummed f e).
Proof.
  unfold checksummed. destruct (status e) eqn:Hst; [|apply entry_le_refl..].
  destruct (file_digest f); repeat split; simpl; rewrite ?Hst;
    try (by left); by right.
Qed.

Lemma checksummed_idem f f' e :
  checksummed f' (checksummed f e) = checksummed f e.
Proof.
  unfold checksummed. destruct (status e) eqn:Hst; [|by rewrite Hst..].
  by destruct (file_digest f).
Qed.

Lemma checksum_result_idem f f' e :
  checksum_result f' (checksummed f e) = checksum_result f e.
Proof. unfold checksum_result. by rewrite checksummed_idem. Qed.

Lemma get_entry_checksum_evolves p e s w :
  heap w !! p = Some (BEntry e) →
  (status e = UNTOUCHED → heap w !! path e = Some (BString s)) →
  ∃ w', get_entry_checksum p w = Some (checksum_result (files w !! s) e, w') ∧
    heap w' !! p = Some (BEntry (checksummed (files w !! s) e)) ∧
    (∀ a, a ≠ p → heap w' !! a = heap w !! a) ∧
    evolves w w'.
Proof.
  intros Hp Hs. destruct (get_entry_checksum_run p e s w) as (evs & _ & ->);
    [done..|].
  eexists. split; [done|]. split; [apply lookup_upd_entry_eq|]. split.
  { intros a Ha. by rewrite lookup_upd_entry_ne. }
  eapply evolves_trans; [apply (evolves_log_all evs)|].
  apply evolves_upd_entry with e; [done|apply checksummed_le].
Qed.

(** ** compare_entry_checksums *)

Lemma checksum_bytes_loop_spec (first second : digest) n : ∀ i,
  (i + n = SHA1_HASH_SIZE)%nat →
  checksum_bytes_loop n i first second =
    if decide (drop i (vec_to_list first) = drop i (vec_to_list second))
    then 0 else -1.
Proof.
  induction n as [|n IH]; intros i Hi; simpl.
  - rewrite !drop_ge by (rewrite length_vec_to_list; lia). done.
  - destruct (lookup_lt_is_Some_2 (vec_to_list first) i) as [x Hx];
      [rewrite length_vec_to_list; lia|].
    destruct (lookup_lt_is_Some_2 (vec_to_list second) i) as [y Hy];
      [rewrite length_vec_to_list; lia|].
    rewrite (drop_S _ _ _ Hx), (drop_S _ _ _ Hy), Hx, Hy.
    destruct (decide (x = y)) as [->|Hne].
    + rewrite bool_decide_eq_false_2 by (intros Hne; by apply Hne).
      rewrite IH by lia.
      destruct (decide (drop (S i) _ = drop (S i) _)) as [->|Hd].
      * by rewrite decide_True.
      * rewrite decide_False; [done|]. by intros [= ?].
    + rewrite bool_decide_eq_true_2 by congruence.
      rewrite decide_False; [done|]. by intros [= ?].
Qed.

(** The loop over the digest bytes decides the equality of the digests. *)
Lemma checksum_bytes_loop_eq (first second : digest) :
  checksum_bytes_loop SHA1_HASH_SIZE 0 first second =
    if decide (first = second) then 0 else -1.
Proof.
  rewrite checksum_bytes_loop_spec by done. rewrite !drop_0.
  destruct (decide (first = second)) as [->|Hne].
  - by rewrite decide_True.
  - rewrite decide_False; [done|]. by intros ?%vec_to_list_inj2.
Qed.

Lemma compare_entry_checksums_run p q e1 s1 e2 s2 w :
  entry_at w p e1 s1 → entry_at w q e2 s2 →
  ∃ w', compare_entry_checksums p q w =
      Some (checksums_result (files w !! s1) (files w !! s2) e1 e2, w') ∧
    evolves w w'.
Proof.
  intros [Hp Hs1] [Hq Hs2]. unfold compare_entry_checksums, checksums_result.
  destruct (get_entry_checksum_evolves p e1 s1 w)
    as (w1 & Hrun1 & Hp1 & Hframe1 & Hev1); [done..|].
  rewrite bind_run, Hrun1.
  destruct (decide (checksum_result (files w !! s1) e1 = 0)) as [Hr1|Hr1];
    [|rewrite bool_decide_eq_true_2, decide_False by tauto; eauto].
  rewrite bool_decide_eq_false_2 by (intros Hne; by apply Hne).
  assert (files w1 = files w) as Hfiles by apply Hev1.
  destruct (decide (p = q)) as [<-|Hpq].
  - (* both arguments are the same entry *)
    assert (e2 = e1) as -> by congruence.
    assert (s2 = s1) as -> by congruence.
    destruct (get_entry_checksum_evolves p (checksummed (files w !! s1) e1)
      s1 w1)
      as (w2 & Hrun2 & Hp2 & Hframe2 & Hev2); [done| |].
    { intros _.
      destruct (checksummed_le (files w !! s1) e1) as (_ & -> & _).
      rewrite Hframe1; [done|congruence]. }
    rewrite bind_run, Hrun2, checksum_result_idem, checksummed_idem in *.
    rewrite bool_decide_eq_false_2 by (intros Hne; by apply Hne).
    do 2 rewrite bind_run,
      (load_entry_run p (checksummed (files w !! s1) e1) w2) by done.
    rewrite ret_run, checksum_bytes_loop_eq, !decide_True by done.
    eauto using evolves_trans.
  - assert (heap w1 !! q = Some (BEntry e2)) as Hq1 by (by rewrite Hframe1).
    destruct (get_entry_checksum_evolves q e2 s2 w1)
      as (w2 & Hrun2 & Hq2 & Hframe2 & Hev2); [done| |].
    { intros _. rewrite Hframe1; [done|congruence]. }
    rewrite Hfiles in Hrun2, Hq2. rewrite bind_run, Hrun2.
    destruct (decide (checksum_result (files w !! s2) e2 = 0)) as [Hr2|Hr2];
      [|rewrite bool_decide_eq_true_2, decide_False by tauto;
        eauto using evolves_trans].
    rewrite bool_decide_eq_false_2 by (intros Hne; by apply Hne).
    rewrite bind_run, (load_entry_run p (checksummed (files w !! s1) e1))
      by (by rewrite Hframe2).
    rewrite bind_run,
      (load_entry_run q (checksummed (files w !! s2) e2) w2) by done.
    rewrite ret_run, checksum_bytes_loop_eq.
    rewrite (decide_True (P := _ ∧ _)) by done.
    eauto using evolves_trans.
Qed.

(** ** compare_entries *)

Lemma compare_entries_run p q e1 s1 e2 s2 w :
  entry_at w p e1 s1 → entry_at w q e2 s2 →
  ∃ w', compare_entries p q w =
      Some (entries_result (thorough_flag w) (files w !! s1) (files w !! s2)
              e1 e2, w') ∧
    evolves w w'.
Proof.
  intros Hat1 Hat2. pose proof Hat1 as [Hp _]. pose proof Hat2 as [Hq _].
  unfold compare_entries, entries_result.
  rewrite bind_run, (load_entry_run p e1) by done.
  rewrite bind_run, (load_entry_run q e2) by done.
  destruct (decide (size e1 ≠ size e2)) as [Hsz|Hsz].
  { rewrite bool_decide_eq_true_2 by done. eauto using evolves_refl. }
  rewrite bool_decide_eq_false_2 by done. rewrite bind_run.
  destruct (compare_entry_checksums_run p q e1 s1 e2 s2 w)
    as (w1 & -> & Hev1); [done..|].
  destruct (decide (checksums_result _ _ e1 e2 ≠ 0)) as [Hc|Hc].
  { rewrite bool_decide_eq_true_2 by done. eauto. }
  rewrite bool_decide_eq_false_2 by done.
  rewrite bind_run. unfold gets.
  pose proof Hev1 as (Hfiles & _ & -> & _).
  destruct (decide (thorough_flag w ≠ 0)) as [Ht|Ht].
  2: { rewrite bool_decide_eq_false_2 by done. eauto. }
  rewrite bool_decide_eq_true_2 by done.
  destruct (evolves_entry_at w w1 p e1 s1) as (e1' & Hat1' & _); [done..|].
  destruct (evolves_entry_at w w1 q e2 s2) as (e2' & Hat2' & _); [done..|].
  rewrite bind_run.
  destruct (compare_entry_contents_run p q e1' s1 e2' s2 w1)
    as (evs & _ & ->); [done..|].
  rewrite Hfiles.
  assert (evolves w (log_all evs w1)) as Hev
    by eauto using evolves_trans, evolves_log_all.
  destruct (decide (contents_result _ _ ≠ 0)).
  - rewrite bool_decide_eq_true_2 by done. eauto.
  - rewrite bool_decide_eq_false_2 by done. eauto.
Qed.

(** ** Every call moves the world forward *)

(** A call of [get_entry_checksum] that returns was given an entry, and a
    path string if it had to open the file. *)
Lemma get_entry_checksum_defined p r w w' :
  get_entry_checksum p w = Some (r, w') →
  ∃ e s, heap w !! p = Some (BEntry e) ∧
    (status e = UNTOUCHED → heap w !! path e = Some (BString s)).
Proof.
  unfold get_entry_checksum. rewrite bind_run. unfold load_entry at 1.
  destruct (heap w !! p) as [[|e|]|] eqn:He; try done.
  destruct (status e) eqn:Hst; simpl.
  - rewrite bind_run. unfold load_string at 1.
    destruct (heap w !! path e) as [[| |s]|] eqn:Hs; try done.
    intros _. by exists e, s.
  - intros _. exists e, String.EmptyString. split; [done|congruence].
  - intros _. exists e, String.EmptyString. split; [done|congruence].
Qed.

Lemma get_entry_checksum_result p e s r w w' :
  heap w !! p = Some (BEntry e) →
  (status e = UNTOUCHED → heap w !! path e = Some (BString s)) →
  get_entry_checksum p w = Some (r, w') →
  r = checksum_result (files w !! s) e.
Proof.
  intros Hp Hs Hrun.
  destruct (get_entry_checksum_evolves p e s w) as (w1 & Hrun' & _);
    [done..|].
  congruence.
Qed.

(** The call fails exactly when it leaves the entry [INVALID], and succeeds
    exactly when it leaves it [CHECKSUMMED]. *)
Lemma get_entry_checksum_outcome p e s r w w' :
  heap w !! p = Some (BEntry e) →
  (status e = UNTOUCHED → heap w !! path e = Some (BString s)) →
  get_entry_checksum p w = Some (r, w') →
  ∃ e', heap w' !! p = Some (BEntry e') ∧
    ((r = -1 ∧ status e' = INVALID) ∨ (r = 0 ∧ status e' = CHECKSUMMED)).
Proof.
  intros Hp Hs Hrun.
  destruct (get_entry_checksum_evolves p e s w) as (w1 & Hrun' & Hp' & _);
    [done..|].
  rewrite Hrun in Hrun'. injection Hrun' as -> ->.
  eexists. split; [done|]. unfold checksum_result, checksummed.
  destruct (status e) eqn:Hst; rewrite ?Hst; [|by right|by left].
  destruct (file_digest (files w !! s)); simpl; [by right|by left].
Qed.

Lemma mono_get_entry_checksum p : mono (get_entry_checksum p).
Proof.
  intros w r w' Hrun.
  destruct (get_entry_checksum_defined p r w w' Hrun) as (e & s & Hp & Hs).
  destruct (get_entry_checksum_evolves p e s w) as (w1 & Hrun' & _ & _ & Hev);
    [done..|].
  congruence.
Qed.

#[local] Hint Resolve mono_get_entry_checksum : mono.

Lemma mono_compare_entry_checksums p q : mono (compare_entry_checksums p q).
Proof. unfold compare_entry_checksums. solve_mono. Qed.

#[local] Hint Resolve mono_compare_entry_checksums : mono.

Lemma mono_compare_entries p q : mono (compare_entries p q).
Proof. unfold compare_entries. solve_mono. Qed.

#[local] Hint Resolve mono_compare_entries : mono.

Lemma mono_run_call c : mono (run_call c).
Proof. destruct c; simpl; solve_mono. Qed.

Lemma mono_run_calls cs : mono (run_calls cs).
Proof.
  induction cs as [|c cs IH]; simpl; [apply mono_ret|].
  apply mono_bind; [apply mono_run_call|done].
Qed.

End Proofs.

(** * The claims *)

Section Claims.
Context `{SHA1}.

(** C1. For every pair of entries whose [size] fields differ,
    [compare_entries] returns -1 (not equal) and leaves the world exactly as
    it found it: nothing is added to the trace, so no file is opened or
    read, and neither entry's status or digest changes. *)
Theorem compare_entries_size_mismatch p q e1 e2 w :
  heap w !! p = Some (BEntry e1) →
  heap w !! q = Some (BEntry e2) →
  size e1 ≠ size e2 →
  compare_entries p q w = Some (-1, w).
Proof.
  intros Hp Hq Hsz. unfold compare_entries.
  rewrite bind_run, (load_entry_run p e1) by done.
  rewrite bind_run, (load_entry_run q e2) by done.
  by rewrite bool_decide_eq_true_2.
Qed.

(** C2. For two entries of equal size, if [get_entry_checksum] fails for
    either of them (it returns -1: the entry is [INVALID] or becomes so
    during the computation), then the digest stage and [compare_entries]
    return -1: the pair is never reported equal. *)
Theorem compare_entries_checksum_failure p q e1 s1 e2 s2 w :
  entry_at w p e1 s1 →
  entry_at w q e2 s2 →
  size e1 = size e2 →
  (∃ w', get_entry_checksum p w = Some (-1, w')) ∨
  (∃ w', get_entry_checksum q w = Some (-1, w')) →
  (∃ w', compare_entry_checksums p q w = Some (-1, w')) ∧
  (∃ w', compare_entries p q w = Some (-1, w')).
Proof.
  intros Hat1 Hat2 Hsz Hfail.
  assert (checksums_result (files w !! s1) (files w !! s2) e1 e2 = -1) as Hc.
  { unfold checksums_result. apply decide_False. intros [Hr1 Hr2].
    destruct Hfail as [[w' Hrun]|[w' Hrun]].
    - apply (get_entry_checksum_result p e1 s1) in Hrun;
        [congruence|apply Hat1|intros _; apply Hat1].
    - apply (get_entry_checksum_result q e2 s2) in Hrun;
        [congruence|apply Hat2|intros _; apply Hat2]. }
  destruct (compare_entry_checksums_run p q e1 s1 e2 s2 w)
    as (w1 & Hrun1 & _); [done..|].
  destruct (compare_entries_run p q e1 s1 e2 s2 w)
    as (w2 & Hrun2 & _); [done..|].
  rewrite Hc in Hrun1. unfold entries_result in Hrun2.
  rewrite decide_False, Hc, decide_True in Hrun2 by (done || by intros ?).
  eauto.
Qed.

(** C3. Two readable files of equal size whose digests collide: the digest
    stage lets the pair through, and the byte-exact stage decides.  It reads
    the two streams in lockstep and returns -1 (not equal) when the contents
    differ in some byte, 0 (equal) when both streams end together with every
    byte the same.  So [compare_entries] returns the verdict of the byte-exact
    stage when [thorough_flag] is set, -1 for contents that differ, and 0
    (equal) whatever the contents when it is not set. *)
Theorem compare_entries_digest_collision p q e1 s1 e2 s2 d1 d2 w :
  entry_at w p e1 s1 →
  entry_at w q e2 s2 →
  files w !! s1 = Some (mkFile d1 EndOfFile) →
  files w !! s2 = Some (mkFile d2 EndOfFile) →
  size e1 = Z.of_nat (length d1) →
  size e2 = Z.of_nat (length d2) →
  length d1 = length d2 →
  digest_consistent e1 d1 →
  digest_consistent e2 d2 →
  sha1_of d1 = sha1_of d2 →
  (∃ w', compare_entry_checksums p q w = Some (0, w')) ∧
  (∃ w', compare_entry_contents p q w =
           Some (if decide (d1 = d2) then 0 else -1, w')) ∧
  (thorough_flag w ≠ 0 →
     ∃ w', compare_entries p q w =
             Some (if decide (d1 = d2) then 0 else -1, w')) ∧
  (thorough_flag w = 0 → ∃ w', compare_entries p q w = Some (0, w')).
Proof.
  intros Hat1 Hat2 Hf1 Hf2 Hsz1 Hsz2 Hlen Hc1 Hc2 Hcoll.
  assert (∀ e d, digest_consistent e d →
    checksum_result (Some (mkFile d EndOfFile)) e = 0 ∧
    checksum (checksummed (Some (mkFile d EndOfFile)) e) = sha1_of d) as Hdig.
  { intros e d [Hst|[Hst Hck]];
      unfold checksum_result, checksummed; rewrite Hst; simpl;
      by rewrite ?Hst. }
  destruct (Hdig _ _ Hc1) as [Hr1 Hk1], (Hdig _ _ Hc2) as [Hr2 Hk2].
  assert (checksums_result (files w !! s1) (files w !! s2) e1 e2 = 0) as Hc.
  { unfold checksums_result. rewrite Hf1, Hf2.
    rewrite decide_True by done. rewrite decide_True by congruence. done. }
  assert (contents_result (files w !! s1) (files w !! s2) =
          if decide (d1 = d2) then 0 else -1) as Hb.
  { rewrite Hf1, Hf2. done. }
  destruct (compare_entry_checksums_run p q e1 s1 e2 s2 w)
    as (w1 & Hrun1 & _); [done..|].
  destruct (compare_entry_contents_run p q e1 s1 e2 s2 w)
    as (evs & _ & Hrun2); [done..|].
  destruct (compare_entries_run p q e1 s1 e2 s2 w)
    as (w3 & Hrun3 & _); [done..|].
  rewrite Hc in Hrun1. rewrite Hb in Hrun2.
  unfold entries_result in Hrun3.
  rewrite decide_False, Hc, decide_False, Hb in Hrun3
    by (try lia; by intros ?).
  split; [eauto|]. split; [eauto|]. split; intros Ht.
  - rewrite decide_True in Hrun3 by done.
    destruct (decide (d1 = d2)); simpl in Hrun3; eauto.
  - rewrite decide_False in Hrun3 by (by intros ?). eauto.
Qed.

(** C4. [get_entry_checksum] is memoized.  On a [CHECKSUMMED] entry it
    returns 0 at once and leaves the world, trace and digest included, as it
    is.  On an [UNTOUCHED] entry, the first call opens the file exactly once,
    and a second call returns what the first returned without changing
    anything: the digest is the same and the file has been opened once in
    all. *)
Theorem get_entry_checksum_memoized p e s w :
  entry_at w p e s →
  (status e = CHECKSUMMED → get_entry_checksum p w = Some (0, w)) ∧
  (status e = UNTOUCHED →
   ∃ r w1 evs,
     get_entry_checksum p w = Some (r, w1) ∧
     get_entry_checksum p w1 = Some (r, w1) ∧
     trace w1 = trace w ++ evs ∧
     count_opens evs = 1%nat).
Proof.
  intros Hat. split; intros Hst.
  - apply get_entry_checksum_checksummed with e; [apply Hat|done].
  - destruct (get_entry_checksum_untouched p e s w) as (evs & Hevs & Hrun);
      [done..|].
    eexists _, _, evs. split; [done|]. split; [|done].
    set (f := files w !! s) in *.
    unfold checksum_result, checksummed. rewrite Hst.
    destruct (file_digest f); simpl.
    + eapply get_entry_checksum_checksummed; [apply lookup_upd_entry_eq|done].
    + eapply get_entry_checksum_invalid; [apply lookup_upd_entry_eq|done].
Qed.

(** C5. When [get_entry_checksum] cannot open the file of an [UNTOUCHED]
    entry, or reading it ends in an error, the call returns -1 and changes
    the entry only by setting its status to [INVALID]: the digest field is
    what it was.  On an entry that is [INVALID] already it returns -1 and
    leaves the world, the trace included, as it is.  In particular the
    digest of an entry made by [make_entry] is still all zero after the
    failed call. *)
Theorem get_entry_checksum_failure p e s w :
  entry_at w p e s →
  (status e = UNTOUCHED → unreadable (files w !! s) →
   ∃ evs, get_entry_checksum p w =
     Some (-1, upd_entry p (with_status INVALID e) (log_all evs w))) ∧
  (status e = INVALID → get_entry_checksum p w = Some (-1, w)) ∧
  (∀ name sz, unreadable (files w !! name) →
   ∃ entry w1 w2 e',
     make_entry name sz w = Some (entry, w1) ∧
     get_entry_checksum entry w1 = Some (-1, w2) ∧
     heap w2 !! entry = Some (BEntry e') ∧
     status e' = INVALID ∧ checksum e' = zero_digest).
Proof.
  intros Hat.
  assert (∀ f, unreadable f → file_digest f = None) as Hun.
  { by intros f [->|[data ->]]. }
  split; [|split].
  - intros Hst Hf.
    destruct (get_entry_checksum_untouched p e s w) as (evs & _ & Hrun);
      [done..|].
    exists evs. rewrite Hrun. unfold checksum_result, checksummed.
    by rewrite Hst, (Hun _ Hf).
  - intros Hst. apply get_entry_checksum_invalid with e; [apply Hat|done].
  - intros name sz Hf.
    destruct (make_entry_run name sz w)
      as (entry & p2 & w1 & Hrun & Hp & Hp2 & Hne & Hh & Hfiles & _).
    set (e0 := mkEntry None p2 sz UNTOUCHED
                 (vreplicate SHA1_HASH_SIZE Byte.x00)) in *.
    assert (entry_at w1 entry e0 name) as Hat0.
    { split; rewrite Hh; [apply lookup_insert_eq|].
      rewrite lookup_insert_ne, lookup_insert_eq by done. done. }
    destruct (get_entry_checksum_untouched entry e0 name w1)
      as (evs & _ & Hrun'); [done..|].
    rewrite Hfiles in Hrun'. unfold checksum_result, checksummed in Hrun'.
    simpl in Hrun'. rewrite (Hun _ Hf) in Hrun'. simpl in Hrun'.
    eexists entry, w1, _, _. split; [done|]. split; [done|].
    split; [apply lookup_upd_entry_eq|]. done.
Qed.

(** C6. The status of an entry only moves forward.  [make_entry] returns an
    [UNTOUCHED] entry; and whatever sequence of calls of [make_entry],
    [copy_entry], [get_entry_checksum], [compare_entry_checksums],
    [compare_entry_contents] and [compare_entries] is run, an entry that was
    in the heap before is still there afterwards, with the status it had
    unless that was [UNTOUCHED]: a [CHECKSUMMED] entry stays [CHECKSUMMED],
    an [INVALID] entry stays [INVALID], and none goes back to [UNTOUCHED]. *)
Theorem status_monotone cs w w' p e :
  run_calls cs w = Some (tt, w') →
  heap w !! p = Some (BEntry e) →
  (∀ name sz w0, ∃ p0 w1 e0,
     make_entry name sz w0 = Some (p0, w1) ∧
     heap w1 !! p0 = Some (BEntry e0) ∧ status e0 = UNTOUCHED) ∧
  ∃ e', heap w' !! p = Some (BEntry e') ∧
    status_le (status e) (status e') ∧
    (status e = CHECKSUMMED → status e' = CHECKSUMMED) ∧
    (status e = INVALID → status e' = INVALID) ∧
    (status e' = UNTOUCHED → status e = UNTOUCHED).
Proof.
  intros Hrun Hp. split.
  - intros name sz w0.
    destruct (make_entry_run name sz w0)
      as (p0 & p2 & w1 & Hrun0 & _ & _ & _ & Hh & _).
    eexists p0, w1, _. split; [done|]. rewrite Hh.
    split; [apply lookup_insert_eq|done].
  - apply mono_run_calls in Hrun as (_ & _ & _ & _ & Hh).
    destruct (Hh _ _ Hp) as (b & Hb & Hle).
    apply block_le_entry in Hle as (e' & -> & Hle).
    exists e'. split; [done|].
    destruct Hle as (_ & _ & _ & Hst & _).
    split; [done|]. destruct Hst as [Hst|Hst]; rewrite Hst;
      repeat split; congruence.
Qed.

(** *** The byte-exact stage *)

(** On two files that can be read to their ends the byte-exact stage
    decides the equality of their contents. *)
Lemma compare_entry_contents_readable p q e1 s1 e2 s2 d1 d2 w :
  entry_at w p e1 s1 → entry_at w q e2 s2 →
  files w !! s1 = Some (mkFile d1 EndOfFile) →
  files w !! s2 = Some (mkFile d2 EndOfFile) →
  ∃ w', compare_entry_contents p q w =
          Some (if decide (d1 = d2) then 0 else -1, w').
Proof.
  intros Hat1 Hat2 Hf1 Hf2.
  destruct (compare_entry_contents_run p q e1 s1 e2 s2 w)
    as (evs & _ & ->); [done..|].
  exists (log_all evs w). by rewrite Hf1, Hf2.
Qed.

(** It does not tell a read error from the end of a file: two streams that
    deliver the same bytes compare equal however they end. *)
Lemma compare_entry_contents_ignores_error p q e1 s1 e2 s2 d t1 t2 w :
  entry_at w p e1 s1 → entry_at w q e2 s2 →
  files w !! s1 = Some (mkFile d t1) →
  files w !! s2 = Some (mkFile d t2) →
  ∃ w', compare_entry_contents p q w = Some (0, w').
Proof.
  intros Hat1 Hat2 Hf1 Hf2.
  destruct (compare_entry_contents_run p q e1 s1 e2 s2 w)
    as (evs & _ & ->); [done..|].
  exists (log_all evs w). rewrite Hf1, Hf2. simpl. by rewrite decide_True.
Qed.

(** What does hold: if either file cannot be opened, the byte-exact stage
    returns -1. *)
Lemma compare_entry_contents_open_failure p q e1 s1 e2 s2 w :
  entry_at w p e1 s1 → entry_at w q e2 s2 →
  files w !! s1 = None ∨ files w !! s2 = None →
  ∃ w', compare_entry_contents p q w = Some (-1, w').
Proof.
  intros Hat1 Hat2 Hf.
  destruct (compare_entry_contents_run p q e1 s1 e2 s2 w)
    as (evs & _ & ->); [done..|].
  exists (log_all evs w). f_equal. f_equal.
  unfold contents_result. destruct Hf as [->| ->]; [done|].
  by destruct (files w !! s1).
Qed.

(** And a read error on one stream is noticed when the other stream still
    has a byte to deliver at that point. *)
Lemma compare_entry_contents_read_error_shorter p q e1 s1 e2 s2 d1 d2 t w :
  entry_at w p e1 s1 → entry_at w q e2 s2 →
  files w !! s1 = Some (mkFile d1 ReadError) →
  files w !! s2 = Some (mkFile d2 t) →
  (length d1 < length d2)%nat →
  ∃ w', compare_entry_contents p q w = Some (-1, w').
Proof.
  intros Hat1 Hat2 Hf1 Hf2 Hlen.
  destruct (compare_entry_contents_run p q e1 s1 e2 s2 w)
    as (evs & _ & ->); [done..|].
  exists (log_all evs w). f_equal. f_equal.
  rewrite Hf1, Hf2. simpl. apply decide_False. intros ->. lia.
Qed.

(** C8, as amended. For every entry that is not [INVALID],
    [compare_entries] of the entry and its copy returns 0 (equal) with
    [thorough_flag] off and on, provided the file of the entry can be opened
    and read to its end whenever the comparison reads it: when the entry is
    still [UNTOUCHED], and when [thorough_flag] is on. *)
Theorem compare_entries_copy p e s w :
  entry_at w p e s →
  status e ≠ INVALID →
  (status e = UNTOUCHED ∨ thorough_flag w ≠ 0 → readable (files w !! s)) →
  ∃ c w1 w2,
    copy_entry p w = Some (c, w1) ∧
    compare_entries p c w1 = Some (0, w2).
Proof.
  intros Hat Hst Hread. pose proof Hat as [Hp Hs].
  destruct (copy_entry_run p e s w Hat)
    as (c & c2 & w1 & Hrun & Hc & Hc2 & Hne & Hh & Hfiles & _ & _ & Hth).
  set (ec := mkEntry None c2 (size e) (status e) (checksum e)) in *.
  assert (entry_at w1 p e s) as Hat1.
  { split; rewrite Hh, !lookup_insert_ne by congruence; done. }
  assert (entry_at w1 c ec s) as Hat2.
  { split; rewrite Hh; [apply lookup_insert_eq|].
    rewrite lookup_insert_ne, lookup_insert_eq by done. done. }
  destruct (compare_entries_run p c e s ec s w1) as (w2 & Hrun2 & _);
    [done..|].
  exists c, w1, w2. split; [done|]. rewrite Hrun2. f_equal. f_equal.
  rewrite Hfiles, Hth. generalize dependent (files w !! s). intros f Hread.
  assert (checksums_result f f e ec = 0) as Hck.
  { unfold checksums_result, checksum_result, checksummed, ec. simpl.
    destruct (status e) eqn:He; rewrite ?He; simpl;
      [|by rewrite !decide_True|done].
    destruct Hread as [data ->]; [by left|]. simpl.
    by rewrite !decide_True. }
  unfold entries_result. rewrite decide_False by (by intros ?).
  rewrite Hck, decide_False by (by intros ?).
  destruct (decide (thorough_flag w ≠ 0)) as [Ht|Ht]; [|done].
  destruct Hread as [data ->]; [by right|]. simpl.
  rewrite (decide_True (P := data = data)) by done.
  by rewrite decide_False by (by intros ?).
Qed.

(** C9. [copy_entry] returns an entry in storage of its own: a new entry
    block and a new string, holding the same path string, size, status and
    digest; the original is as it was.  From then on the two are
    independent: writing status and digest of either, and running
    [get_entry_checksum] on either, leaves the other entry and its path
    string as they are. *)
Theorem copy_entry_independent p e s w :
  entry_at w p e s →
  ∃ c w' ec,
    copy_entry p w = Some (c, w') ∧
    entry_at w' c ec s ∧
    size ec = size e ∧ status ec = status e ∧ checksum ec = checksum e ∧
    c ≠ p ∧ path ec ≠ path e ∧
    heap w !! c = None ∧ heap w !! path ec = None ∧
    entry_at w' p e s ∧
    (∀ st d, ∃ w'',
       store_entry c (with_status st (with_checksum d ec)) w' = Some (tt, w'') ∧
       entry_at w'' p e s) ∧
    (∀ st d, ∃ w'',
       store_entry p (with_status st (with_checksum d e)) w' = Some (tt, w'') ∧
       entry_at w'' c ec s) ∧
    (∃ r w'', get_entry_checksum c w' = Some (r, w'') ∧ entry_at w'' p e s) ∧
    (∃ r w'', get_entry_checksum p w' = Some (r, w'') ∧ entry_at w'' c ec s) ∧
    (∃ w'', free_entry c w' = Some (tt, w'') ∧ entry_at w'' p e s) ∧
    (∃ w'', free_entry p w' = Some (tt, w'') ∧ entry_at w'' c ec s).
Proof.
  intros Hat. pose proof Hat as [Hp Hs].
  destruct (copy_entry_run p e s w Hat)
    as (c & c2 & w1 & Hrun & Hc & Hc2 & Hne & Hh & Hfiles & _).
  set (ec := mkEntry None c2 (size e) (status e) (checksum e)) in *.
  assert (c ≠ p ∧ c ≠ path e ∧ c2 ≠ p ∧ c2 ≠ path e) as (? & ? & ? & ?)
    by (repeat split; congruence).
  assert (entry_at w1 p e s) as Hat1.
  { split; rewrite Hh, !lookup_insert_ne by done; done. }
  assert (entry_at w1 c ec s) as Hat2.
  { split; rewrite Hh; [apply lookup_insert_eq|].
    rewrite lookup_insert_ne, lookup_insert_eq by done. done. }
  assert (path ec = c2) as Hpec by done.
  exists c, w1, ec. rewrite Hpec.
  repeat split; try done; try apply Hat1; try apply Hat2.
  - intros st d. eexists. split; [by apply store_entry_run with ec, Hat2|].
    split; rewrite lookup_upd_entry_ne by done; apply Hat1.
  - intros st d. eexists. split; [by apply store_entry_run with e, Hat1|].
    split; rewrite lookup_upd_entry_ne by done; apply Hat2.
  - destruct (get_entry_checksum_evolves c ec s w1)
      as (w2 & Hrun2 & _ & Hframe & _); [apply Hat2|intros _; apply Hat2|].
    eexists _, w2. split; [done|].
    split; rewrite Hframe by done; apply Hat1.
  - destruct (get_entry_checksum_evolves p e s w1)
      as (w2 & Hrun2 & _ & Hframe & _); [apply Hat1|intros _; apply Hat1|].
    eexists _, w2. split; [done|].
    split; rewrite Hframe by done; apply Hat2.
  - eexists. split; [by apply free_entry_run with s|].
    split; simpl; rewrite !lookup_delete_ne by done; apply Hat1.
  - eexists. split; [by apply free_entry_run with s|].
    split; simpl; rewrite !lookup_delete_ne by done; apply Hat2.
Qed.

(** C10. The verdict is symmetric: from the same world, [compare_entries]
    returns the same value for a pair of entries in either order, whatever
    [thorough_flag] is; and so do its two stages.  The worlds the two calls
    end in may differ. *)
Theorem compare_entries_symmetric p q e1 s1 e2 s2 w :
  entry_at w p e1 s1 →
  entry_at w q e2 s2 →
  (∃ r w1 w2,
     compare_entries p q w = Some (r, w1) ∧
     compare_entries q p w = Some (r, w2)) ∧
  (∃ r w1 w2,
     compare_entry_checksums p q w = Some (r, w1) ∧
     compare_entry_checksums q p w = Some (r, w2)) ∧
  (∃ r w1 w2,
     compare_entry_contents p q w = Some (r, w1) ∧
     compare_entry_contents q p w = Some (r, w2)).
Proof.
  intros Hat1 Hat2.
  set (f1 := files w !! s1). set (f2 := files w !! s2).
  assert (checksums_result f1 f2 e1 e2 = checksums_result f2 f1 e2 e1) as Hck.
  { unfold checksums_result.
    destruct (decide (checksum_result f1 e1 = 0 ∧ checksum_result f2 e2 = 0))
      as [[? ?]|Hn].
    - rewrite (decide_True (P := _ ∧ _)) by done.
      destruct (decide (checksum (checksummed f1 e1) = _)) as [Heq|Hneq].
      + by rewrite decide_True.
      + by rewrite decide_False.
    - rewrite (decide_False (P := _ ∧ _)); [done|]. intros [? ?]. by apply Hn. }
  assert (contents_result f1 f2 = contents_result f2 f1) as Hct.
  { unfold contents_result. destruct f1 as [a|], f2 as [b|]; try done.
    destruct (decide (contents a = contents b)) as [Heq|Hneq].
    - by rewrite decide_True.
    - by rewrite decide_False. }
  assert (entries_result (thorough_flag w) f1 f2 e1 e2 =
          entries_result (thorough_flag w) f2 f1 e2 e1) as Hen.
  { unfold entries_result. rewrite Hck, Hct.
    destruct (decide (size e1 ≠ size e2)) as [Hsz|Hsz].
    - by rewrite (decide_True (P := size e2 ≠ size e1)).
    - rewrite (decide_False (P := size e2 ≠ size e1)); [done|].
      intros Hne. apply Hsz. congruence. }
  destruct (compare_entries_run p q e1 s1 e2 s2 w)
    as (w1 & Hrun1 & _); [done..|].
  destruct (compare_entries_run q p e2 s2 e1 s1 w)
    as (w2 & Hrun2 & _); [done..|].
  destruct (compare_entry_checksums_run p q e1 s1 e2 s2 w)
    as (w3 & Hrun3 & _); [done..|].
  destruct (compare_entry_checksums_run q p e2 s2 e1 s1 w)
    as (w4 & Hrun4 & _); [done..|].
  destruct (compare_entry_contents_run p q e1 s1 e2 s2 w)
    as (evs5 & _ & Hrun5); [done..|].
  destruct (compare_entry_contents_run q p e2 s2 e1 s1 w)
    as (evs6 & _ & Hrun6); [done..|].
  fold f1 f2 in Hrun1, Hrun2, Hrun3, Hrun4, Hrun5, Hrun6.
  rewrite <- Hen in Hrun2. rewrite <- Hck in Hrun4. rewrite <- Hct in Hrun6.
  split; [|split]; do 3 eexists; split; eassumption.
Qed.

End Claims.

(** * The claims on concrete worlds

    The theorems above are applied to the concrete worlds of the first
    part, with [sum_sha1] for the digest. *)

Lemma compare_entries_size_mismatch_witness :
  compare_entries (H := sum_sha1) ptr_a ptr_b world_sizes = Some (-1, world_sizes).
Proof.
  apply (compare_entries_size_mismatch (H := sum_sha1) ptr_a ptr_b
           (entry_a 2 UNTOUCHED zero_digest) (entry_b 1 UNTOUCHED zero_digest)).
  - reflexivity.
  - reflexivity.
  - simpl. lia.
Defined.

Lemma compare_entries_checksum_failure_witness :
  (∃ w', get_entry_checksum (H := sum_sha1) ptr_a world_missing = Some (-1, w')) ∧
  (∃ w', compare_entry_checksums (H := sum_sha1) ptr_a ptr_b world_missing
           = Some (-1, w')) ∧
  (∃ w', compare_entries (H := sum_sha1) ptr_a ptr_b world_missing = Some (-1, w')).
Proof.
  assert (∃ w', get_entry_checksum (H := sum_sha1) ptr_a world_missing
                  = Some (-1, w')) as Hfail.
  { eexists. vm_compute. reflexivity. }
  split; [exact Hfail|].
  apply (compare_entries_checksum_failure (H := sum_sha1) ptr_a ptr_b
           (entry_a 2 UNTOUCHED zero_digest) "a"
           (entry_b 2 UNTOUCHED zero_digest) "b").
  - split; reflexivity.
  - split; reflexivity.
  - reflexivity.
  - left. exact Hfail.
Defined.

Lemma compare_entries_digest_collision_witness :
  ((∃ w', compare_entry_contents ptr_a ptr_b (world_collision 1)
            = Some (-1, w')) ∧
   (∃ w', compare_entries (H := sum_sha1) ptr_a ptr_b (world_collision 1)
            = Some (-1, w')) ∧
   (∃ w', compare_entries (H := sum_sha1) ptr_a ptr_b (world_collision 0)
            = Some (0, w'))) ∧
  ((∃ w', compare_entry_contents ptr_a ptr_b (world_same 1)
            = Some (0, w')) ∧
   (∃ w', compare_entries (H := sum_sha1) ptr_a ptr_b (world_same 1)
            = Some (0, w'))).
Proof.
  split.
  - destruct (compare_entries_digest_collision (H := sum_sha1)
             ptr_a ptr_b
             (entry_a 2 UNTOUCHED zero_digest) "a"
             (entry_b 2 UNTOUCHED zero_digest) "b"
             [Byte.x61; Byte.x62] [Byte.x62; Byte.x61] (world_collision 1))
      as (_ & Hbytes & Hthorough & _);
      try (split; reflexivity); try reflexivity; try (left; reflexivity).
    destruct (compare_entries_digest_collision (H := sum_sha1)
             ptr_a ptr_b
             (entry_a 2 UNTOUCHED zero_digest) "a"
             (entry_b 2 UNTOUCHED zero_digest) "b"
             [Byte.x61; Byte.x62] [Byte.x62; Byte.x61] (world_collision 0))
      as (_ & _ & _ & Hquick);
      try (split; reflexivity); try reflexivity; try (left; reflexivity).
    split; [exact Hbytes|]. split.
    + apply Hthorough. simpl. lia.
    + apply Hquick. reflexivity.
  - destruct (compare_entries_digest_collision (H := sum_sha1)
             ptr_a ptr_b
             (entry_a 2 UNTOUCHED zero_digest) "a"
             (entry_b 2 UNTOUCHED zero_digest) "b"
             [Byte.x61; Byte.x62] [Byte.x61; Byte.x62] (world_same 1))
      as (_ & Hbytes & Hthorough & _);
      try (split; reflexivity); try reflexivity; try (left; reflexivity).
    split; [exact Hbytes|]. apply Hthorough. simpl. lia.
Defined.

Lemma get_entry_checksum_memoized_witness :
  get_entry_checksum (H := sum_sha1) ptr_a world_checksummed
    = Some (0, world_checksummed) ∧
  ∃ r w1 evs,
    get_entry_checksum (H := sum_sha1) ptr_b world_checksummed = Some (r, w1) ∧
    get_entry_checksum (H := sum_sha1) ptr_b w1 = Some (r, w1) ∧
    trace w1 = trace world_checksummed ++ evs ∧
    count_opens evs = 1%nat.
Proof.
  split.
  - apply (get_entry_checksum_memoized (H := sum_sha1) ptr_a
             (entry_a 2 CHECKSUMMED (sum_digest 195)) "a" world_checksummed).
    + split; reflexivity.
    + reflexivity.
  - apply (get_entry_checksum_memoized (H := sum_sha1) ptr_b
             (entry_b 2 UNTOUCHED zero_digest) "b" world_checksummed).
    + split; reflexivity.
    + reflexivity.
Defined.

Lemma get_entry_checksum_failure_witness :
  (∃ evs, get_entry_checksum (H := sum_sha1) ptr_a world_unreadable =
     Some (-1, upd_entry ptr_a (entry_a 2 INVALID zero_digest)
                 (log_all evs world_unreadable))) ∧
  get_entry_checksum (H := sum_sha1) ptr_b world_unreadable
    = Some (-1, world_unreadable).
Proof.
  split.
  - apply (get_entry_checksum_failure (H := sum_sha1) ptr_a
             (entry_a 2 UNTOUCHED zero_digest) "a" world_unreadable).
    + split; reflexivity.
    + reflexivity.
    + right. exists [Byte.x61]. reflexivity.
  - apply (get_entry_checksum_failure (H := sum_sha1) ptr_b
             (entry_b 2 INVALID zero_digest) "b" world_unreadable).
    + split; reflexivity.
    + reflexivity.
Defined.

Lemma status_monotone_witness :
  ∃ w' e',
    run_calls (H := sum_sha1) calls_example world_unreadable = Some (tt, w') ∧
    heap w' !! ptr_b = Some (BEntry e') ∧
    status e' = INVALID.
Proof.
  destruct (run_calls (H := sum_sha1) calls_example world_unreadable)
    as [[[] w']|] eqn:Hrun; [|vm_compute in Hrun; discriminate Hrun].
  destruct (status_monotone (H := sum_sha1) calls_example world_unreadable w'
              ptr_b (entry_b 2 INVALID zero_digest) Hrun)
    as (_ & e' & He' & _ & _ & Hinv & _).
  - reflexivity.
  - exists w', e'. split; [reflexivity|]. split; [exact He'|].
    apply Hinv. reflexivity.
Defined.

(** C7 does not hold of the code.  [compare_entry_contents] reads with
    [fgetc] and never asks [ferror], so a read error looks like the end of
    the file.  In [world_read_error] both streams fail after the first byte;
    the byte-exact stage returns 0, and in thorough mode [compare_entries]
    reports the pair equal, although neither file could be read to its
    end. *)
Theorem compare_entry_contents_read_error_equal :
  (∃ w', compare_entry_contents ptr_a ptr_b world_read_error = Some (0, w')) ∧
  (∃ w', compare_entries (H := sum_sha1) ptr_a ptr_b world_read_error
           = Some (0, w')) ∧
  thorough_flag world_read_error ≠ 0 ∧
  unreadable (files world_read_error !! "a").
Proof.
  split; [eexists; vm_compute; reflexivity|].
  split; [eexists; vm_compute; reflexivity|].
  split; [done|]. right. exists [Byte.x61]. reflexivity.
Qed.

(** C8 as stated fails: an entry whose file cannot be opened does not
    compare equal to its own copy. *)
Lemma compare_entries_copy_unreadable :
  ¬ ∀ (H : SHA1) p e s w,
      entry_at w p e s →
      ∃ c w1 w2,
        copy_entry p w = Some (c, w1) ∧
        compare_entries p c w1 = Some (0, w2).
Proof.
  intros Hall.
  destruct (Hall sum_sha1 ptr_a (entry_a 2 UNTOUCHED zero_digest) "a"
              world_missing) as (c & w1 & w2 & Hcopy & Hcmp).
  { split; reflexivity. }
  vm_compute in Hcopy. injection Hcopy as <- <-.
  vm_compute in Hcmp. discriminate Hcmp.
Qed.

Lemma compare_entries_copy_witness :
  (∃ c w1 w2,
     copy_entry ptr_a (world_collision 0) = Some (c, w1) ∧
     compare_entries (H := sum_sha1) ptr_a c w1 = Some (0, w2)) ∧
  (∃ c w1 w2,
     copy_entry ptr_a (world_collision 1) = Some (c, w1) ∧
     compare_entries (H := sum_sha1) ptr_a c w1 = Some (0, w2)).
Proof.
  split.
  - apply (compare_entries_copy (H := sum_sha1) ptr_a
             (entry_a 2 UNTOUCHED zero_digest) "a" (world_collision 0)).
    + split; reflexivity.
    + discriminate.
    + intros _. exists [Byte.x61; Byte.x62]. reflexivity.
  - apply (compare_entries_copy (H := sum_sha1) ptr_a
             (entry_a 2 UNTOUCHED zero_digest) "a" (world_collision 1)).
    + split; reflexivity.
    + discriminate.
    + intros _. exists [Byte.x61; Byte.x62]. reflexivity.
Defined.

Lemma copy_entry_independent_witness :
  ∃ c w' ec,
    copy_entry ptr_a world_checksummed = Some (c, w') ∧
    entry_at w' c ec "a" ∧
    status ec = CHECKSUMMED ∧ checksum ec = sum_digest 195 ∧
    c ≠ ptr_a ∧ path ec ≠ 2%positive ∧
    entry_at w' ptr_a (entry_a 2 CHECKSUMMED (sum_digest 195)) "a".
Proof.
  destruct (copy_entry_independent (H := sum_sha1) ptr_a
              (entry_a 2 CHECKSUMMED (sum_digest 195)) "a" world_checksummed)
    as (c & w' & ec & Hrun & Hat & _ & Hst & Hck & Hc & Hpath & _ & _ & Horig
        & _).
  - split; reflexivity.
  - exists c, w', ec. repeat split; try done; apply Hat || apply Horig.
Defined.

Lemma compare_entries_symmetric_witness :
  ∃ r w1 w2,
    compare_entries (H := sum_sha1) ptr_a ptr_b (world_collision 1)
      = Some (r, w1) ∧
    compare_entries (H := sum_sha1) ptr_b ptr_a (world_collision 1)
      = Some (r, w2).
Proof.
  apply (compare_entries_symmetric (H := sum_sha1) ptr_a ptr_b
           (entry_a 2 UNTOUCHED zero_digest) "a"
           (entry_b 2 UNTOUCHED zero_digest) "b" (world_collision 1)).
  - split; reflexivity.
  - split; reflexivity.
Defined.

(** * Further properties of the code *)

(** ** free_entry and free_entry_list *)

Lemma free_entry_list_loop_unfold fuel head :
  free_entry_list_loop (S fuel) head =
    match head with
    | None => mret None
    | Some entry =>
        e ← load_entry entry;
        free_entry entry;;
        free_entry_list_loop fuel (next e)
    end.
Proof. reflexivity. Qed.

(** The heap after the blocks of a list have been freed, in the order in
    which [free_entry_list] frees them. *)
Lemma lookup_free_blocks (l : list loc) (h : gmap loc block) a :
  foldl (λ h a, delete a h) h l !! a =
    if decide (a ∈ l) then None else h !! a.
Proof.
  revert h. induction l as [|b l IH]; intros h; simpl.
  - done.
  - rewrite IH. destruct (decide (a ∈ l)) as [Hin|Hnin].
    + rewrite decide_True; [done|]. apply elem_of_cons. by right.
    + destruct (decide (a = b)) as [->|Hne].
      * rewrite decide_True by (apply elem_of_cons; by left).
        apply lookup_delete_eq.
      * rewrite decide_False.
        -- by apply lookup_delete_ne.
        -- intros [?|?]%elem_of_cons; done.
Qed.

(** A list is still a list in a heap that holds its blocks unchanged. *)
Lemma entry_list_frame w w' l : ∀ head,
  (∀ a, a ∈ list_blocks l → heap w' !! a = heap w !! a) →
  entry_list w head l → entry_list w' head l.
Proof.
  induction l as [|[[p e] s] l IH]; intros head Hframe Hl; simpl in *; [done|].
  destruct Hl as (-> & [Hp Hs] & Hl). split; [done|]. split.
  - split; rewrite Hframe; try done; rewrite !elem_of_cons; auto.
  - apply IH; [|done]. intros a Ha. apply Hframe.
    rewrite !elem_of_cons. auto.
Qed.

(** The loop frees a list whose blocks are all different, given fuel beyond
    its length. *)
Lemma free_entry_list_loop_runs l : ∀ fuel head w,
  entry_list w head l →
  NoDup (list_blocks l) →
  (length l < fuel)%nat →
  free_entry_list_loop fuel head w =
    Some (None, set_heap (λ h, foldl (λ h a, delete a h) h (list_blocks l)) w).
Proof.
  induction l as [|[[p e] s] l IH]; intros fuel head w Hl Hnd Hfuel;
    (destruct fuel as [|fuel]; [simpl in Hfuel; lia|]);
    rewrite free_entry_list_loop_unfold; simpl in Hl.
  - subst head. by destruct w.
  - destruct Hl as (-> & Hat & Hl). pose proof Hat as [Hp Hs].
    simpl in Hnd. apply NoDup_cons in Hnd as [Hpath Hnd].
    apply NoDup_cons in Hnd as [Hpl Hnd].
    rewrite bind_run, (load_entry_run p e) by done.
    rewrite bind_run, (free_entry_run p e s) by done.
    rewrite (IH fuel (next e)); [done| |done|simpl in Hfuel; lia].
    apply entry_list_frame with w; [|done].
    intros a Ha. simpl. rewrite !lookup_delete_ne; [done|..].
    + intros <-. apply Hpath. apply elem_of_cons. by right.
    + by intros <-.
Qed.

Lemma world_eq w w' :
  heap w' = heap w → files w' = files w → trace w' = trace w →
  quiet_flag w' = quiet_flag w → thorough_flag w' = thorough_flag w →
  w' = w.
Proof. destruct w, w'; simpl. by intros -> -> -> -> ->. Qed.

Lemma length_le_size (ls : list loc) (h : gmap loc block) :
  NoDup ls → (∀ a, a ∈ ls → is_Some (h !! a)) → (length ls ≤ base.size h)%nat.
Proof.
  intros Hnd Hin.
  rewrite <- (size_list_to_set (C := gset loc) ls), <- size_dom by done.
  apply subseteq_size. intros a Ha%elem_of_list_to_set.
  by apply elem_of_dom, Hin.
Qed.

Lemma entry_list_blocks w l : ∀ head,
  entry_list w head l → ∀ a, a ∈ list_blocks l → is_Some (heap w !! a).
Proof.
  induction l as [|[[p e] s] l IH]; intros head Hl a Ha; simpl in *.
  - by apply elem_of_nil in Ha.
  - destruct Hl as (_ & [Hp Hs] & Hl).
    rewrite !elem_of_cons in Ha. destruct Ha as [->|[->|Ha]]; eauto.
Qed.

(** X1. [free_entry_list] on a list of entries whose blocks are all
    different returns with the head set to [NULL]; it has freed every entry
    of the list and every path string, and nothing else: all other blocks,
    the files, the trace and the flags are as they were. *)
Theorem free_entry_list_frees head l w :
  entry_list w head l →
  NoDup (list_blocks l) →
  ∃ w', free_entry_list head w = Some (None, w') ∧
    (∀ a, heap w' !! a =
            if decide (a ∈ list_blocks l) then None else heap w !! a) ∧
    files w' = files w ∧ trace w' = trace w ∧
    quiet_flag w' = quiet_flag w ∧ thorough_flag w' = thorough_flag w.
Proof.
  intros Hl Hnd. eexists. split.
  - unfold free_entry_list. apply free_entry_list_loop_runs; [done..|].
    pose proof (length_le_size (list_blocks l) (heap w) Hnd
                  (entry_list_blocks w l head Hl)) as Hle.
    assert (length l ≤ length (list_blocks l))%nat; [|lia].
    clear. induction l as [|[[p e] s] l IH]; simpl; lia.
  - split; [|done]. intros a. apply lookup_free_blocks.
Qed.

(** X2. An entry made by [make_entry] and freed by [free_entry] leaves no
    trace: the world after the two calls is the world before them. *)
Theorem make_entry_free_entry name sz w :
  ∃ p w1, make_entry name sz w = Some (p, w1) ∧
          free_entry p w1 = Some (tt, w).
Proof.
  destruct (make_entry_run name sz w)
    as (p & p2 & w1 & Hrun & Hp & Hp2 & Hne & Hh & Hf & Ht & Hq & Hth).
  exists p, w1. split; [done|].
  rewrite (free_entry_run p
             (mkEntry None p2 sz UNTOUCHED (vreplicate SHA1_HASH_SIZE Byte.x00))
             name).
  - f_equal. f_equal. apply world_eq; simpl; try done.
    rewrite Hh, delete_insert_ne by done.
    rewrite !delete_insert_eq, (delete_id _ _ Hp2). by apply delete_id.
  - split; rewrite Hh; [apply lookup_insert_eq|].
    simpl. by rewrite lookup_insert_ne, lookup_insert_eq.
Qed.

(** X3. Freeing the copy that [copy_entry] has made gives back the world in
    which the copy was made: the copy owns its entry block and its path
    string, and nothing of the original. *)
Theorem copy_entry_free_entry p e s w :
  entry_at w p e s →
  ∃ c w1, copy_entry p w = Some (c, w1) ∧
          free_entry c w1 = Some (tt, w).
Proof.
  intros Hat.
  destruct (copy_entry_run p e s w Hat)
    as (c & c2 & w1 & Hrun & Hc & Hc2 & Hne & Hh & Hf & Ht & Hq & Hth).
  exists c, w1. split; [done|].
  rewrite (free_entry_run c
             (mkEntry None c2 (size e) (status e) (checksum e)) s).
  - f_equal. f_equal. apply world_eq; simpl; try done.
    rewrite Hh, delete_insert_ne by done.
    rewrite !delete_insert_eq, (delete_id _ _ Hc2). by apply delete_id.
  - split; rewrite Hh; [apply lookup_insert_eq|].
    simpl. by rewrite lookup_insert_ne, lookup_insert_eq.
Qed.

Section More.
Context `{SHA1}.

#[local] Arguments checksum_bytes_loop : simpl never.

(** ** What the comparisons leave in the heap *)

(** [compare_entry_checksums] leaves the first entry as
    [get_entry_checksum] leaves it, and the second one too if the first
    call has succeeded; it touches no other block. *)
Lemma compare_entry_checksums_post p q e1 s1 e2 s2 w :
  entry_at w p e1 s1 → entry_at w q e2 s2 →
  ∃ w', compare_entry_checksums p q w =
      Some (checksums_result (files w !! s1) (files w !! s2) e1 e2, w') ∧
    evolves w w' ∧
    heap w' !! p = Some (BEntry (checksummed (files w !! s1) e1)) ∧
    (checksum_result (files w !! s1) e1 = 0 →
     heap w' !! q = Some (BEntry (checksummed (files w !! s2) e2))) ∧
    (checksum_result (files w !! s1) e1 ≠ 0 → p ≠ q →
     heap w' !! q = Some (BEntry e2)) ∧
    (∀ a, a ≠ p → a ≠ q → heap w' !! a = heap w !! a).
Proof.
  intros [Hp Hs1] [Hq Hs2]. unfold compare_entry_checksums, checksums_result.
  destruct (get_entry_checksum_evolves p e1 s1 w)
    as (w1 & Hrun1 & Hp1 & Hframe1 & Hev1); [done..|].
  rewrite bind_run, Hrun1.
  destruct (decide (checksum_result (files w !! s1) e1 = 0)) as [Hr1|Hr1].
  2: { rewrite bool_decide_eq_true_2, decide_False by tauto.
       exists w1. do 3 (split; [done|]). split; [done|]. split.
       - intros _ Hne. by rewrite Hframe1.
       - intros a Ha _. by apply Hframe1. }
  rewrite bool_decide_eq_false_2 by (intros Hne; by apply Hne).
  assert (files w1 = files w) as Hfiles by apply Hev1.
  destruct (decide (p = q)) as [<-|Hpq].
  - assert (e2 = e1) as -> by congruence.
    assert (s2 = s1) as -> by congruence.
    destruct (get_entry_checksum_evolves p (checksummed (files w !! s1) e1)
      s1 w1)
      as (w2 & Hrun2 & Hp2 & Hframe2 & Hev2); [done| |].
    { intros _.
      destruct (checksummed_le (files w !! s1) e1) as (_ & -> & _).
      rewrite Hframe1; [done|congruence]. }
    rewrite bind_run, Hrun2, checksum_result_idem, checksummed_idem in *.
    rewrite bool_decide_eq_false_2 by (intros Hne; by apply Hne).
    do 2 rewrite bind_run,
      (load_entry_run p (checksummed (files w !! s1) e1) w2) by done.
    rewrite ret_run, checksum_bytes_loop_eq, !decide_True by done.
    exists w2. split; [done|]. split; [by eapply evolves_trans|].
    do 3 (split; [done|]).
    intros a Ha _. by rewrite Hframe2, Hframe1.
  - assert (heap w1 !! q = Some (BEntry e2)) as Hq1 by (by rewrite Hframe1).
    destruct (get_entry_checksum_evolves q e2 s2 w1)
      as (w2 & Hrun2 & Hq2 & Hframe2 & Hev2); [done| |].
    { intros _. rewrite Hframe1; [done|congruence]. }
    rewrite Hfiles in Hrun2, Hq2. rewrite bind_run, Hrun2.
    assert (heap w2 !! p = Some (BEntry (checksummed (files w !! s1) e1)))
      as Hp2 by (by rewrite Hframe2).
    assert (∀ a, a ≠ p → a ≠ q → heap w2 !! a = heap w !! a) as Hframe.
    { intros a Ha1 Ha2. by rewrite Hframe2, Hframe1. }
    assert (evolves w w2) as Hev by (by eapply evolves_trans).
    destruct (decide (checksum_result (files w !! s2) e2 = 0)) as [Hr2|Hr2].
    2: { rewrite bool_decide_eq_true_2, decide_False by tauto.
         exists w2. by do 5 (split; [done|]). }
    rewrite bool_decide_eq_false_2 by (intros Hne; by apply Hne).
    rewrite bind_run, (load_entry_run p (checksummed (files w !! s1) e1))
      by done.
    rewrite bind_run,
      (load_entry_run q (checksummed (files w !! s2) e2) w2) by done.
    rewrite ret_run, checksum_bytes_loop_eq.
    rewrite (decide_True (P := _ ∧ _)) by done.
    exists w2. by do 5 (split; [done|]).
Qed.

(** [compare_entries] leaves the heap as its digest stage leaves it. *)
Lemma compare_entries_post p q e1 s1 e2 s2 w :
  entry_at w p e1 s1 → entry_at w q e2 s2 →
  ∃ w', compare_entries p q w =
      Some (entries_result (thorough_flag w) (files w !! s1) (files w !! s2)
              e1 e2, w') ∧
    evolves w w' ∧
    (size e1 ≠ size e2 → w' = w) ∧
    (size e1 = size e2 →
     heap w' !! p = Some (BEntry (checksummed (files w !! s1) e1)) ∧
     (checksum_result (files w !! s1) e1 = 0 →
      heap w' !! q = Some (BEntry (checksummed (files w !! s2) e2))) ∧
     (checksum_result (files w !! s1) e1 ≠ 0 → p ≠ q →
      heap w' !! q = Some (BEntry e2))) ∧
    (∀ a, a ≠ p → a ≠ q → heap w' !! a = heap w !! a).
Proof.
  intros Hat1 Hat2. pose proof Hat1 as [Hp _]. pose proof Hat2 as [Hq _].
  unfold compare_entries, entries_result.
  rewrite bind_run, (load_entry_run p e1) by done.
  rewrite bind_run, (load_entry_run q e2) by done.
  destruct (decide (size e1 ≠ size e2)) as [Hsz|Hsz].
  { rewrite bool_decide_eq_true_2 by done.
    exists w. split; [done|]. split; [apply evolves_refl|]. by split. }
  rewrite bool_decide_eq_false_2 by done. rewrite bind_run.
  destruct (compare_entry_checksums_post p q e1 s1 e2 s2 w)
    as (w1 & -> & Hev1 & Hp1 & Hq1 & Hq1' & Hframe1); [done..|].
  assert (size e1 = size e2 →
     heap w1 !! p = Some (BEntry (checksummed (files w !! s1) e1)) ∧
     (checksum_result (files w !! s1) e1 = 0 →
      heap w1 !! q = Some (BEntry (checksummed (files w !! s2) e2))) ∧
     (checksum_result (files w !! s1) e1 ≠ 0 → p ≠ q →
      heap w1 !! q = Some (BEntry e2))) as Hpost by done.
  destruct (decide (checksums_result _ _ e1 e2 ≠ 0)) as [Hc|Hc].
  { rewrite bool_decide_eq_true_2 by done.
    exists w1. by do 4 (split; [done|]). }
  rewrite bool_decide_eq_false_2 by done.
  rewrite bind_run. unfold gets.
  pose proof Hev1 as (Hfiles & _ & -> & _).
  destruct (decide (thorough_flag w ≠ 0)) as [Ht|Ht].
  2: { rewrite bool_decide_eq_false_2 by done.
       exists w1. by do 4 (split; [done|]). }
  rewrite bool_decide_eq_true_2 by done.
  destruct (evolves_entry_at w w1 p e1 s1) as (e1' & Hat1' & _); [done..|].
  destruct (evolves_entry_at w w1 q e2 s2) as (e2' & Hat2' & _); [done..|].
  rewrite bind_run.
  destruct (compare_entry_contents_run p q e1' s1 e2' s2 w1)
    as (evs & _ & ->); [done..|].
  rewrite Hfiles.
  assert (evolves w (log_all evs w1)) as Hev
    by eauto using evolves_trans, evolves_log_all.
  exists (log_all evs w1).
  destruct (decide (contents_result _ _ ≠ 0)).
  - rewrite bool_decide_eq_true_2 by done. by do 4 (split; [done|]).
  - rewrite bool_decide_eq_false_2 by done. by do 4 (split; [done|]).
Qed.

(** The digest stage does no I/O and changes nothing when the first entry
    is [INVALID], or when it is [CHECKSUMMED] and the second one is not
    [UNTOUCHED]. *)
Lemma compare_entry_checksums_settled p q e1 e2 w :
  heap w !! p = Some (BEntry e1) → heap w !! q = Some (BEntry e2) →
  status e1 = INVALID ∨ (status e1 = CHECKSUMMED ∧ status e2 ≠ UNTOUCHED) →
  compare_entry_checksums p q w =
    Some (if decide (status e1 = CHECKSUMMED ∧ status e2 = CHECKSUMMED ∧
                     checksum e1 = checksum e2) then 0 else -1, w).
Proof.
  intros Hp Hq Hst. unfold compare_entry_checksums. rewrite bind_run.
  destruct Hst as [Hst|[Hst1 Hst2]].
  - rewrite (get_entry_checksum_invalid p e1) by done. simpl.
    rewrite decide_False; [done|]. intros [? _]. congruence.
  - rewrite (get_entry_checksum_checksummed p e1) by done. simpl.
    rewrite bind_run. destruct (status e2) eqn:Hst; [done| |].
    + rewrite (get_entry_checksum_checksummed q e2) by done. simpl.
      rewrite bind_run, (load_entry_run p e1) by done.
      rewrite bind_run, (load_entry_run q e2) by done.
      rewrite ret_run, checksum_bytes_loop_eq.
      destruct (decide (checksum e1 = checksum e2)) as [Heq|Hne].
      * by rewrite decide_True.
      * rewrite decide_False; [done|]. by intros (_ & _ & ?).
    + rewrite (get_entry_checksum_invalid q e2) by done. simpl.
      rewrite decide_False; [done|]. by intros (_ & ? & _).
Qed.

(** ** get_entry_checksum on a readable file *)

(** X4. On an [UNTOUCHED] entry whose file can be opened and read to its
    end, [get_entry_checksum] returns 0, opens the file exactly once, and
    changes the entry only by storing the digest of the bytes of the file
    and setting the status to [CHECKSUMMED]; nothing else in the heap
    changes. *)
Theorem get_entry_checksum_success p e s data w :
  entry_at w p e s →
  status e = UNTOUCHED →
  files w !! s = Some (mkFile data EndOfFile) →
  ∃ evs, count_opens evs = 1%nat ∧
    get_entry_checksum p w =
      Some (0, upd_entry p
                 (mkEntry (next e) (path e) (size e) CHECKSUMMED (sha1_of data))
                 (log_all evs w)).
Proof.
  intros Hat Hst Hf.
  destruct (get_entry_checksum_untouched p e s w) as (evs & Hevs & Hrun);
    [done..|].
  exists evs. split; [done|]. rewrite Hrun.
  unfold checksum_result, checksummed. by rewrite Hst, Hf.
Qed.

(** With a hash whose updates compose, feeding the bytes in pieces of
    [BUFFER_SIZE] is feeding them at once. *)
Lemma sha1_feed_streaming fuel : ∀ context data,
  (∀ c a b, SHA1Update (SHA1Update c a) b = SHA1Update c (a ++ b)) →
  (length data < fuel)%nat →
  sha1_feed fuel context data =
    if decide (data = []) then context else SHA1Update context data.
Proof.
  induction fuel as [|fuel IH]; intros context data Hlaw Hlen; [lia|].
  simpl. destruct (decide (data = [])) as [->|Hne].
  - done.
  - rewrite bool_decide_eq_false_2 by done.
    pose proof BUFFER_SIZE_pos.
    rewrite IH; [|done|].
    + destruct (decide (drop BUFFER_SIZE data = [])) as [Hd|Hd].
      * rewrite <- (take_drop BUFFER_SIZE data) at 2.
        by rewrite Hd, app_nil_r.
      * by rewrite Hlaw, take_drop.
    + rewrite length_drop. destruct data; [done|]. simpl in *. lia.
Qed.

(** X5. The size of the read buffer does not show in the digest.  If the
    updates of the hash compose ([SHA1Update] on [a] and then on [b] is
    [SHA1Update] on [a ++ b]), the digest that [get_entry_checksum] stores
    for a readable file is the digest of one update with all its bytes; for
    an empty file, with or without that law, it is the digest of the initial
    context, without any update. *)
Theorem get_entry_checksum_chunking p e s data w :
  (data ≠ [] →
   ∀ c a b, SHA1Update (SHA1Update c a) b = SHA1Update c (a ++ b)) →
  entry_at w p e s →
  status e = UNTOUCHED →
  files w !! s = Some (mkFile data EndOfFile) →
  ∃ w' e', get_entry_checksum p w = Some (0, w') ∧
    heap w' !! p = Some (BEntry e') ∧
    status e' = CHECKSUMMED ∧
    checksum e' =
      SHA1Final (if decide (data = []) then SHA1Init
                 else SHA1Update SHA1Init data).
Proof.
  intros Hlaw Hat Hst Hf.
  destruct (get_entry_checksum_untouched p e s w) as (evs & _ & Hrun);
    [done..|].
  unfold checksum_result, checksummed in Hrun. rewrite Hst, Hf in Hrun.
  simpl in Hrun. eexists _, _. split; [exact Hrun|].
  split; [apply lookup_upd_entry_eq|]. split; [done|]. simpl.
  unfold sha1_of. destruct (decide (data = [])) as [->|Hne]; [done|].
  rewrite sha1_feed_streaming by (auto; lia). by rewrite decide_False.
Qed.

(** ** compare_entry_contents *)

(** X6. [compare_entry_contents] returns 0 exactly when both files can be
    opened and deliver the same bytes, and -1 otherwise: also when the files
    are of different lengths, which its callers are told to exclude.  It
    tries to open both files in every case, and changes nothing but the
    trace. *)
Theorem compare_entry_contents_decides p q e1 s1 e2 s2 w :
  entry_at w p e1 s1 →
  entry_at w q e2 s2 →
  ∃ r evs,
    compare_entry_contents p q w = Some (r, log_all evs w) ∧
    count_opens evs = 2%nat ∧
    (r = 0 ∨ r = -1) ∧
    (r = 0 ↔ ∃ d t1 t2, files w !! s1 = Some (mkFile d t1) ∧
                         files w !! s2 = Some (mkFile d t2)).
Proof.
  intros Hat1 Hat2.
  destruct (compare_entry_contents_run p q e1 s1 e2 s2 w)
    as (evs & Hevs & Hrun); [done..|].
  eexists _, evs. split; [exact Hrun|]. split; [done|].
  unfold contents_result.
  destruct (files w !! s1) as [[d1 t1]|], (files w !! s2) as [[d2 t2]|];
    simpl; try (split; [by right|]; split; [done|];
                intros (? & ? & ? & ? & ?); done).
  destruct (decide (d1 = d2)) as [->|Hne].
  - split; [by left|]. split; [eauto|done].
  - split; [by right|]. split; [done|].
    intros (d & ? & ? & [= -> _] & [= -> _]). done.
Qed.

(** ** compare_entries *)

(** X7. What the verdict "equal" of [compare_entries] stands for: the sizes
    are equal, both entries are [CHECKSUMMED] afterwards and hold the same
    digest, and with [thorough_flag] set both files were opened and
    delivered the same bytes. *)
Theorem compare_entries_equal_sound p q e1 s1 e2 s2 w w' :
  entry_at w p e1 s1 →
  entry_at w q e2 s2 →
  compare_entries p q w = Some (0, w') →
  size e1 = size e2 ∧
  (∃ e1' e2',
     heap w' !! p = Some (BEntry e1') ∧ heap w' !! q = Some (BEntry e2') ∧
     status e1' = CHECKSUMMED ∧ status e2' = CHECKSUMMED ∧
     checksum e1' = checksum e2') ∧
  (thorough_flag w ≠ 0 →
   ∃ d t1 t2, files w !! s1 = Some (mkFile d t1) ∧
              files w !! s2 = Some (mkFile d t2)).
Proof.
  intros Hat1 Hat2 Hrun.
  destruct (compare_entries_post p q e1 s1 e2 s2 w)
    as (w1 & Hrun' & _ & _ & Hpost & _); [done..|].
  rewrite Hrun in Hrun'. injection Hrun' as Hres <-.
  unfold entries_result in Hres.
  destruct (decide (size e1 ≠ size e2)) as [?|Hsz]; [done|].
  assert (size e1 = size e2) as Hsz'
    by (destruct (decide (size e1 = size e2)); done).
  destruct (decide (checksums_result _ _ e1 e2 ≠ 0)) as [?|Hc]; [done|].
  unfold checksums_result in Hc.
  destruct (decide (checksum_result _ e1 = 0 ∧ checksum_result _ e2 = 0))
    as [[Hr1 Hr2]|?]; [|by destruct Hc].
  destruct (decide (checksum (checksummed _ e1) = _)) as [Hck|?];
    [|by destruct Hc].
  destruct (Hpost Hsz') as (Hp' & Hq' & _).
  split; [done|]. split.
  - eexists _, _. split; [exact Hp'|]. split; [by apply Hq'|].
    unfold checksum_result in Hr1, Hr2.
    split; [by destruct (status (checksummed _ e1))|].
    split; [by destruct (status (checksummed _ e2))|done].
  - intros Ht. rewrite decide_True in Hres by done.
    destruct (decide (contents_result _ _ ≠ 0)) as [?|Hb]; [done|].
    unfold contents_result in Hb.
    destruct (files w !! s1) as [[d1 t1]|], (files w !! s2) as [[d2 t2]|];
      try (by destruct Hb).
    simpl in Hb. destruct (decide (d1 = d2)) as [->|?]; [eauto|].
    by destruct Hb.
Qed.

(** X8. Once the digests are cached, a comparison without
    [thorough_flag] costs nothing: on two entries that are not [UNTOUCHED]
    [compare_entries] leaves the world as it is (no file is opened, no
    warning given) and returns 0 exactly when the sizes are equal, both
    entries are [CHECKSUMMED] and their digests are equal. *)
Theorem compare_entries_cached p q e1 e2 w :
  heap w !! p = Some (BEntry e1) →
  heap w !! q = Some (BEntry e2) →
  status e1 ≠ UNTOUCHED →
  status e2 ≠ UNTOUCHED →
  thorough_flag w = 0 →
  compare_entries p q w =
    Some (if decide (size e1 = size e2 ∧
                     status e1 = CHECKSUMMED ∧ status e2 = CHECKSUMMED ∧
                     checksum e1 = checksum e2) then 0 else -1, w).
Proof.
  intros Hp Hq Hst1 Hst2 Ht. unfold compare_entries.
  rewrite bind_run, (load_entry_run p e1) by done.
  rewrite bind_run, (load_entry_run q e2) by done.
  destruct (decide (size e1 = size e2)) as [Hsz|Hsz].
  2: { rewrite bool_decide_eq_true_2 by done.
       rewrite decide_False; [done|]. by intros [? _]. }
  rewrite bool_decide_eq_false_2 by (intros Hne; by apply Hne).
  rewrite bind_run.
  rewrite (compare_entry_checksums_settled p q e1 e2); [|done|done|].
  2: { destruct (status e1); [done|right; by split|by left]. }
  destruct (decide (status e1 = CHECKSUMMED ∧ _)) as [Hd|Hd].
  - simpl. rewrite bind_run. unfold gets. rewrite Ht. simpl.
    by rewrite decide_True.
  - simpl. rewrite decide_False; [done|]. intros [_ ?]. by apply Hd.
Qed.

Lemma compare_entries_no_io p q e1 e2 w :
  heap w !! p = Some (BEntry e1) → heap w !! q = Some (BEntry e2) →
  thorough_flag w = 0 →
  size e1 ≠ size e2 ∨ status e1 = INVALID ∨
    (status e1 = CHECKSUMMED ∧ status e2 ≠ UNTOUCHED) →
  ∃ r, compare_entries p q w = Some (r, w).
Proof.
  intros Hp Hq Ht Hcase. unfold compare_entries.
  rewrite bind_run, (load_entry_run p e1) by done.
  rewrite bind_run, (load_entry_run q e2) by done.
  destruct (decide (size e1 ≠ size e2)) as [Hsz|Hsz].
  { rewrite bool_decide_eq_true_2 by done. by eexists. }
  rewrite bool_decide_eq_false_2 by done.
  destruct Hcase as [?|Hcase]; [done|].
  rewrite bind_run.
  rewrite (compare_entry_checksums_settled p q e1 e2) by done.
  destruct (decide (status e1 = CHECKSUMMED ∧ _)); simpl; [|by eexists].
  rewrite bind_run. unfold gets. rewrite Ht. simpl. by eexists.
Qed.

Lemma size_checksummed f e : size (checksummed f e) = size e.
Proof. by destruct (checksummed_le f e) as (_ & _ & -> & _). Qed.

Lemma path_checksummed f e : path (checksummed f e) = path e.
Proof. by destruct (checksummed_le f e) as (_ & -> & _). Qed.

(** The verdict does not depend on whether the digests of the entries have
    been computed already. *)
Lemma entries_result_cached th f1 f2 e1 e2 e1' e2' :
  e1' = e1 ∨ e1' = checksummed f1 e1 →
  e2' = e2 ∨ e2' = checksummed f2 e2 →
  entries_result th f1 f2 e1' e2' = entries_result th f1 f2 e1 e2.
Proof.
  intros H1 H2.
  assert (size e1' = size e1 ∧
          checksum_result f1 e1' = checksum_result f1 e1 ∧
          checksummed f1 e1' = checksummed f1 e1) as (Hs1 & Hr1 & Hc1).
  { destruct H1 as [->| ->]; [done|].
    by rewrite size_checksummed, checksum_result_idem, checksummed_idem. }
  assert (size e2' = size e2 ∧
          checksum_result f2 e2' = checksum_result f2 e2 ∧
          checksummed f2 e2' = checksummed f2 e2) as (Hs2 & Hr2 & Hc2).
  { destruct H2 as [->| ->]; [done|].
    by rewrite size_checksummed, checksum_result_idem, checksummed_idem. }
  unfold entries_result, checksums_result.
  by rewrite Hs1, Hs2, Hr1, Hr2, Hc1, Hc2.
Qed.

(** X9. Repeating a comparison gives the same verdict, and without
    [thorough_flag] the second call finds all it needs in the entries: it
    leaves the world, trace included, as the first call left it. *)
Theorem compare_entries_twice p q e1 s1 e2 s2 w :
  entry_at w p e1 s1 →
  entry_at w q e2 s2 →
  ∃ r w1 w2,
    compare_entries p q w = Some (r, w1) ∧
    compare_entries p q w1 = Some (r, w2) ∧
    (thorough_flag w = 0 → w2 = w1).
Proof.
  intros Hat1 Hat2. pose proof Hat1 as [Hp Hs1]. pose proof Hat2 as [Hq Hs2].
  set (f1 := files w !! s1). set (f2 := files w !! s2).
  destruct (compare_entries_post p q e1 s1 e2 s2 w)
    as (w1 & Hrun & Hev & Hdiff & Hsame & _); [done..|].
  fold f1 f2 in Hrun, Hsame.
  pose proof Hev as (Hfiles & _ & Hth & _).
  assert (∃ e1' e2',
    entry_at w1 p e1' s1 ∧ entry_at w1 q e2' s2 ∧
    (e1' = e1 ∨ e1' = checksummed f1 e1) ∧
    (e2' = e2 ∨ e2' = checksummed f2 e2) ∧
    (thorough_flag w = 0 →
     size e1' ≠ size e2' ∨ status e1' = INVALID ∨
       (status e1' = CHECKSUMMED ∧ status e2' ≠ UNTOUCHED)))
    as (e1' & e2' & Hat1' & Hat2' & He1 & He2 & Hcase).
  { destruct (decide (size e1 = size e2)) as [Hsz|Hsz].
    2: { rewrite (Hdiff Hsz). exists e1, e2. auto 10. }
    destruct (Hsame Hsz) as (Hp1 & Hq1 & Hq1').
    destruct (evolves_entry_at w w1 p e1 s1) as (? & [_ Hs1'] & Hle1);
      [done..|].
    destruct (evolves_entry_at w w1 q e2 s2) as (? & [_ Hs2'] & Hle2);
      [done..|].
    destruct Hle1 as (_ & Hpath1 & _), Hle2 as (_ & Hpath2 & _).
    assert (heap w1 !! path e1 = Some (BString s1)) as Hs1'' by congruence.
    assert (heap w1 !! path e2 = Some (BString s2)) as Hs2'' by congruence.
    assert (∃ e2', heap w1 !! q = Some (BEntry e2') ∧
              (e2' = e2 ∨ e2' = checksummed f2 e2) ∧
              (checksum_result f1 e1 = 0 → e2' = checksummed f2 e2))
      as (e2' & Hq' & He2 & He2').
    { destruct (decide (checksum_result f1 e1 = 0)) as [Hr|Hr].
      - exists (checksummed f2 e2). auto.
      - destruct (decide (p = q)) as [<-|Hpq].
        + exists (checksummed f1 e1). split; [done|].
          assert (e2 = e1) as -> by congruence.
          assert (s2 = s1) as -> by congruence. auto.
        + exists e2. split; [by apply Hq1'|]. split; [by left|done]. }
    exists (checksummed f1 e1), e2'.
    split; [split; [done|by rewrite path_checksummed]|].
    split. { split; [done|]. destruct He2 as [->| ->]; [done|].
             by rewrite path_checksummed. }
    split; [by right|]. split; [done|]. intros _. right.
    unfold checksum_result in He2'.
    destruct (status (checksummed f1 e1)) eqn:Hst1.
    - exfalso. revert Hst1. unfold checksummed.
      destruct (status e1) eqn:?; [|congruence..].
      by destruct (file_digest f1).
    - right. split; [done|]. rewrite He2' by done.
      unfold checksummed. destruct (status e2) eqn:Hst2; [|congruence..].
      by destruct (file_digest f2).
    - by left. }
  destruct (compare_entries_run p q e1' s1 e2' s2 w1) as (w2 & Hrun2 & _);
    [done..|].
  rewrite Hfiles, Hth in Hrun2. fold f1 f2 in Hrun2.
  rewrite (entries_result_cached _ f1 f2 e1 e2) in Hrun2 by done.
  eexists _, w1, w2. split; [exact Hrun|]. split; [exact Hrun2|].
  intros Ht.
  destruct (compare_entries_no_io p q e1' e2' w1) as [r Hrun3];
    [apply Hat1'|apply Hat2'|congruence|auto|].
  congruence.
Qed.

(** X10. [compare_entries] changes nothing in the heap but the two entries
    it is given, and of those neither [next], [path] nor [size]; the files
    and the flags are as they were. *)
Theorem compare_entries_frame p q e1 s1 e2 s2 w :
  entry_at w p e1 s1 →
  entry_at w q e2 s2 →
  ∃ r w' e1' e2',
    compare_entries p q w = Some (r, w') ∧
    (∀ a, a ≠ p → a ≠ q → heap w' !! a = heap w !! a) ∧
    heap w' !! p = Some (BEntry e1') ∧ heap w' !! q = Some (BEntry e2') ∧
    next e1' = next e1 ∧ path e1' = path e1 ∧ size e1' = size e1 ∧
    next e2' = next e2 ∧ path e2' = path e2 ∧ size e2' = size e2 ∧
    files w' = files w ∧
    quiet_flag w' = quiet_flag w ∧ thorough_flag w' = thorough_flag w.
Proof.
  intros Hat1 Hat2.
  destruct (compare_entries_post p q e1 s1 e2 s2 w)
    as (w1 & Hrun & Hev & _ & _ & Hframe); [done..|].
  destruct (evolves_entry_at w w1 p e1 s1) as (e1' & [Hp' _] & Hle1);
    [done..|].
  destruct (evolves_entry_at w w1 q e2 s2) as (e2' & [Hq' _] & Hle2);
    [done..|].
  destruct Hle1 as (? & ? & ? & _), Hle2 as (? & ? & ? & _).
  destruct Hev as (? & ? & ? & _).
  eexists _, w1, e1', e2'. split; [exact Hrun|].
  by do 11 (split; [done|]).
Qed.

(** X11. Two empty files compare equal, with [thorough_flag] off and on;
    the digest that both entries hold afterwards is the digest of the
    initial context, computed without any call of [SHA1Update]. *)
Theorem compare_entries_empty_files p q e1 s1 e2 s2 w :
  entry_at w p e1 s1 →
  entry_at w q e2 s2 →
  status e1 = UNTOUCHED → status e2 = UNTOUCHED →
  size e1 = size e2 →
  files w !! s1 = Some (mkFile [] EndOfFile) →
  files w !! s2 = Some (mkFile [] EndOfFile) →
  ∃ w' e1' e2',
    compare_entries p q w = Some (0, w') ∧
    heap w' !! p = Some (BEntry e1') ∧ heap w' !! q = Some (BEntry e2') ∧
    status e1' = CHECKSUMMED ∧ status e2' = CHECKSUMMED ∧
    checksum e1' = SHA1Final SHA1Init ∧ checksum e2' = SHA1Final SHA1Init.
Proof.
  intros Hat1 Hat2 Hst1 Hst2 Hsz Hf1 Hf2.
  destruct (compare_entries_post p q e1 s1 e2 s2 w)
    as (w1 & Hrun & _ & _ & Hpost & _); [done..|].
  destruct (Hpost Hsz) as (Hp' & Hq' & _).
  rewrite Hf1, Hf2 in *.
  assert (∀ e, status e = UNTOUCHED →
    checksummed (Some (mkFile [] EndOfFile)) e =
      with_status CHECKSUMMED (with_checksum (SHA1Final SHA1Init) e)) as Hck.
  { intros e Hst. unfold checksummed. by rewrite Hst. }
  assert (∀ e, status e = UNTOUCHED →
    checksum_result (Some (mkFile [] EndOfFile)) e = 0) as Hres.
  { intros e Hst. unfold checksum_result. by rewrite Hck. }
  rewrite !Hck in * by done.
  eexists w1, _, _. split; [|split; [exact Hp'|split; [by apply Hq', Hres|done]]].
  rewrite Hrun. f_equal. f_equal.
  unfold entries_result, checksums_result, contents_result.
  rewrite decide_False by (by intros ?).
  rewrite !Hck, !Hres by done. simpl.
  rewrite (decide_True (P := SHA1Final SHA1Init = _)) by done.
  rewrite decide_False by (by intros ?).
  by destruct (decide (thorough_flag w ≠ 0)).
Qed.

End More.

(** ** What the calls write to the trace *)

Lemma count_events_app P evs evs' :
  count_events P (evs ++ evs') = (count_events P evs + count_events P evs')%nat.
Proof. unfold count_events. by rewrite filter_app, length_app. Qed.

Lemma count_events_nil P : count_events P [] = 0%nat.
Proof. done. Qed.

Lemma count_events_one P ev :
  count_events P [ev] = if P ev then 1%nat else 0%nat.
Proof.
  unfold count_events. destruct (P ev) eqn:HP.
  - by rewrite filter_cons_True.
  - rewrite filter_cons_False; [done|]. by rewrite HP.
Qed.

Lemma count_events_cons P ev evs :
  count_events P (ev :: evs) =
    ((if P ev then 1 else 0) + count_events P evs)%nat.
Proof.
  change (ev :: evs) with ([ev] ++ evs).
  by rewrite count_events_app, count_events_one.
Qed.

Lemma count_opens_split evs :
  count_opens evs = (count_events is_open_ok evs +
                     count_events is_open_failed evs)%nat.
Proof.
  induction evs as [|ev evs IH]; [done|].
  change (ev :: evs) with ([ev] ++ evs).
  rewrite count_opens_app, !count_events_app, IH, !count_events_one.
  assert (count_opens [ev] = if is_open ev then 1%nat else 0%nat) as ->
    by apply (count_events_one is_open).
  destruct ev as [? []| | |]; simpl; lia.
Qed.

Section Emits.
Variables quiet thorough : Z.

Lemma emits_ret {A} (a : A) (Q : A → list Event → Prop) :
  Q a [] → emits quiet thorough (mret a) Q.
Proof.
  intros HQ w a' w' Hq Ht [= <- <-]. split; [done|]. split; [done|].
  exists []. by rewrite app_nil_r.
Qed.

Lemma emits_bind {A B} (m : M A) (k : A → M B) (Q : B → list Event → Prop) :
  emits quiet thorough m
    (λ a evs, emits quiet thorough (k a) (λ b evs', Q b (evs ++ evs'))) →
  emits quiet thorough (m ≫= k) Q.
Proof.
  intros Hm w b w'' Hq Ht. rewrite bind_run.
  destruct (m w) as [[a w']|] eqn:Hmw; [|done]. intros Hk.
  destruct (Hm w a w' Hq Ht Hmw) as (Hq' & Ht' & evs & Htr & Hka).
  destruct (Hka w' b w'' Hq' Ht' Hk) as (Hq'' & Ht'' & evs' & Htr' & HQ).
  split; [done|]. split; [done|].
  exists (evs ++ evs'). by rewrite Htr', Htr, app_assoc.
Qed.

Lemma emits_conseq {A} (m : M A) (Q Q' : A → list Event → Prop) :
  emits quiet thorough m Q → (∀ a evs, Q a evs → Q' a evs) →
  emits quiet thorough m Q'.
Proof.
  intros Hm HQ w a w' Hq Ht Hrun.
  destruct (Hm w a w' Hq Ht Hrun) as (? & ? & evs & ? & ?). eauto 10.
Qed.

Lemma emits_stuck {A} (Q : A → list Event → Prop) :
  emits quiet thorough stuck Q.
Proof. by intros w a w'. Qed.

Lemma emits_load_entry p (Q : Entry → list Event → Prop) :
  (∀ e, Q e []) → emits quiet thorough (load_entry p) Q.
Proof.
  intros HQ w a w' Hq Ht. unfold load_entry.
  destruct (heap w !! p) as [[]|]; intros [= <- <-].
  do 2 (split; [done|]). exists []. by rewrite app_nil_r.
Qed.

Lemma emits_load_string p (Q : string → list Event → Prop) :
  (∀ s, Q s []) → emits quiet thorough (load_string p) Q.
Proof.
  intros HQ w a w' Hq Ht. unfold load_string.
  destruct (heap w !! p) as [[]|]; intros [= <- <-].
  do 2 (split; [done|]). exists []. by rewrite app_nil_r.
Qed.

Lemma emits_store_entry p e (Q : unit → list Event → Prop) :
  Q tt [] → emits quiet thorough (store_entry p e) Q.
Proof.
  intros HQ w a w' Hq Ht. unfold store_entry.
  destruct (heap w !! p) as [[]|]; intros [= <- <-];
    (do 2 (split; [done|])); exists []; by rewrite app_nil_r.
Qed.

Lemma emits_set_status p st (Q : unit → list Event → Prop) :
  Q tt [] → emits quiet thorough (set_status p st) Q.
Proof.
  intros HQ. unfold set_status. apply emits_bind, emits_load_entry.
  intros e. by apply emits_store_entry.
Qed.

Lemma emits_quiet_flag (Q : Z → list Event → Prop) :
  Q quiet [] → emits quiet thorough (gets quiet_flag) Q.
Proof.
  intros HQ w a w' Hq Ht [= <- <-]. do 2 (split; [done|]).
  exists []. rewrite app_nil_r, Hq. done.
Qed.

Lemma emits_thorough_flag (Q : Z → list Event → Prop) :
  Q thorough [] → emits quiet thorough (gets thorough_flag) Q.
Proof.
  intros HQ w a w' Hq Ht [= <- <-]. do 2 (split; [done|]).
  exists []. rewrite app_nil_r, Ht. done.
Qed.

Lemma emits_log ev (Q : unit → list Event → Prop) :
  Q tt [ev] → emits quiet thorough (modify (log ev)) Q.
Proof.
  intros HQ w a w' Hq Ht [= <- <-]. do 2 (split; [done|]). by exists [ev].
Qed.

Lemma emits_fclose file (Q : unit → list Event → Prop) :
  Q tt [EvClose (f_name file)] → emits quiet thorough (fclose file) Q.
Proof. apply emits_log. Qed.

Lemma emits_warning name (Q : unit → list Event → Prop) :
  Q tt [EvWarning name] → emits quiet thorough (warning name) Q.
Proof. apply emits_log. Qed.

Lemma emits_fopen name (Q : option FILE → list Event → Prop) :
  Q None [EvOpen name false] →
  (∀ file, Q (Some file) [EvOpen name true]) →
  emits quiet thorough (fopen name) Q.
Proof.
  intros HQ1 HQ2 w a w' Hq Ht. unfold fopen.
  destruct (files w !! name); intros [= <- <-];
    (do 2 (split; [done|])); eexists; split; try done.
Qed.

Lemma emits_fread n file (Q : list byte * FILE → list Event → Prop) :
  (∀ r k, Q r [EvRead (f_name file) k]) →
  emits quiet thorough (fread n file) Q.
Proof.
  intros HQ w a w' Hq Ht [= <- <-]. do 2 (split; [done|]).
  eexists. split; done.
Qed.

Lemma emits_fgetc file (Q : Z * FILE → list Event → Prop) :
  (∀ r k, Q r [EvRead (f_name file) k]) →
  emits quiet thorough (fgetc file) Q.
Proof.
  intros HQ w a w' Hq Ht. unfold fgetc.
  destruct (f_rest file); intros [= <- <-];
    (do 2 (split; [done|])); eexists; split; done.
Qed.

End Emits.

(** Splits the counts of a list of events along the list. *)
#[local] Arguments count_events : simpl never.

Ltac tally :=
  repeat first
    [ rewrite count_opens_split in *
    | rewrite count_events_app in *
    | rewrite count_events_cons in *
    | rewrite count_events_nil in * ];
  simpl in *.

Section Traces.
Context `{SHA1}.
Variables quiet thorough : Z.

Lemma emits_report entry :
  emits quiet thorough (report entry)
    (λ _ evs, count_events is_open_ok evs = 0%nat ∧
              count_events is_open_failed evs = 0%nat ∧
              count_events is_close evs = 0%nat ∧
              count_events is_warning evs = reports quiet).
Proof.
  unfold report, reports. apply emits_bind, emits_quiet_flag.
  destruct (decide (quiet = 0)) as [Hq|Hq].
  - rewrite bool_decide_eq_true_2 by done. simpl.
    apply emits_bind, emits_load_entry. intros e.
    apply emits_bind, emits_load_string. intros s.
    apply emits_warning. by tally.
  - rewrite bool_decide_eq_false_2 by done. simpl.
    apply emits_ret. by tally.
Qed.

Lemma emits_checksum_loop fuel entry : ∀ file context,
  emits quiet thorough (checksum_loop fuel entry file context)
    (λ r evs, count_events is_open_ok evs = 0%nat ∧
              count_events is_open_failed evs = 0%nat ∧
              count_events is_close evs = (if r is None then 1 else 0)%nat ∧
              count_events is_warning evs =
                (if r is None then reports quiet else 0)%nat).
Proof.
  induction fuel as [|fuel IH]; intros file context; [apply emits_stuck|].
  rewrite checksum_loop_unfold.
  apply emits_bind, emits_fread. intros [buffer file'] k.
  destruct (ferror file').
  - apply emits_bind, emits_fclose.
    apply emits_bind, (emits_conseq _ _ _ _ _ (emits_report entry)).
    intros _ evs (Ho & Hf & Hc & Hw).
    apply emits_bind, emits_set_status. apply emits_ret.
    tally. lia.
  - destruct (bool_decide (length buffer = 0%nat)).
    + apply emits_ret. by tally.
    + eapply emits_conseq; [apply IH|].
      intros r evs (Ho & Hf & Hc & Hw). tally. lia.
Qed.

Lemma emits_get_entry_checksum entry :
  emits quiet thorough (get_entry_checksum entry) (tidy quiet 1).
Proof.
  unfold get_entry_checksum, tidy.
  apply emits_bind, emits_load_entry. intros e.
  destruct (bool_decide (status e = INVALID)).
  { apply emits_ret. tally. repeat split; lia. }
  destruct (bool_decide (status e ≠ UNTOUCHED)).
  { apply emits_ret. tally. repeat split; lia. }
  apply emits_bind, emits_load_string. intros s.
  apply emits_bind, emits_fopen.
  - apply emits_bind, (emits_conseq _ _ _ _ _ (emits_report entry)).
    intros _ evs (Ho & Hf & Hc & Hw).
    apply emits_bind, emits_set_status. apply emits_ret.
    tally. repeat split; lia.
  - intros file.
    apply emits_bind, (emits_conseq _ _ _ _ _ (emits_checksum_loop _ _ _ _)).
    intros [context|] evs (Ho & Hf & Hc & Hw).
    + apply emits_bind, emits_fclose.
      apply emits_bind, emits_load_entry. intros e'.
      apply emits_bind, emits_store_entry.
      apply emits_bind, emits_set_status. apply emits_ret.
      tally. repeat split; lia.
    + apply emits_ret. tally. repeat split; lia.
Qed.

Lemma emits_contents_loop fuel : ∀ first_stream second_stream,
  emits quiet thorough (contents_loop fuel first_stream second_stream)
    (λ _ evs, count_events is_open_ok evs = 0%nat ∧
              count_events is_open_failed evs = 0%nat ∧
              count_events is_close evs = 0%nat ∧
              count_events is_warning evs = 0%nat).
Proof.
  induction fuel as [|fuel IH]; intros f s; [apply emits_stuck|].
  rewrite contents_loop_unfold.
  apply emits_bind, emits_fgetc. intros [fc f'] k.
  apply emits_bind, emits_fgetc. intros [sc s'] k'.
  destruct (bool_decide (fc ≠ sc)); [apply emits_ret; by tally|].
  destruct (bool_decide (fc ≠ EOF)); [|apply emits_ret; by tally].
  eapply emits_conseq; [apply IH|].
  intros r evs (Ho & Hf & Hc & Hw). tally. lia.
Qed.

(** The byte-exact stage gives no warning, whatever happens. *)
Lemma emits_compare_entry_contents first second :
  emits quiet thorough (compare_entry_contents first second)
    (λ r evs, tidy quiet 2 r evs ∧ count_events is_warning evs = 0%nat).
Proof.
  unfold compare_entry_contents, tidy.
  apply emits_bind, emits_load_entry. intros f.
  apply emits_bind, emits_load_string. intros fs.
  apply emits_bind, emits_fopen; [|intros first_stream];
    (apply emits_bind, emits_load_entry; intros s);
    (apply emits_bind, emits_load_string; intros ss);
    (apply emits_bind, emits_fopen; [|intros second_stream]); simpl.
  - apply emits_bind, emits_ret, emits_bind, emits_ret, emits_ret.
    tally. repeat split; lia.
  - apply emits_bind, emits_ret, emits_bind, emits_fclose, emits_ret.
    tally. repeat split; lia.
  - apply emits_bind, emits_fclose, emits_bind, emits_ret, emits_ret.
    tally. repeat split; lia.
  - apply emits_bind,
      (emits_conseq _ _ _ _ _ (emits_contents_loop _ _ _)).
    intros r evs (Ho & Hf & Hc & Hw).
    apply emits_bind, emits_fclose, emits_bind, emits_fclose, emits_ret.
    tally. repeat split; lia.
Qed.

Lemma emits_compare_entry_checksums first second :
  emits quiet thorough (compare_entry_checksums first second) (tidy quiet 2).
Proof.
  unfold compare_entry_checksums.
  apply emits_bind,
    (emits_conseq _ _ _ _ _ (emits_get_entry_checksum first)).
  intros r evs (Hc & Ho & Hw & Hr).
  destruct (decide (r = 0)) as [->|Hne].
  2: { rewrite bool_decide_eq_true_2 by done. apply emits_ret.
       unfold tidy. tally. repeat split; lia. }
  destruct Hr as [Hw0 Hf0]; [done|]. simpl.
  apply emits_bind,
    (emits_conseq _ _ _ _ _ (emits_get_entry_checksum second)).
  intros r' evs' (Hc' & Ho' & Hw' & Hr').
  destruct (decide (r' = 0)) as [->|Hne].
  2: { rewrite bool_decide_eq_true_2 by done. apply emits_ret.
       unfold tidy. tally. repeat split; lia. }
  destruct Hr' as [Hw0' Hf0']; [done|]. simpl.
  apply emits_bind, emits_load_entry. intros f.
  apply emits_bind, emits_load_entry. intros s.
  apply emits_ret. unfold tidy. tally. repeat split; lia.
Qed.

Lemma emits_compare_entries first second :
  emits quiet thorough (compare_entries first second)
    (tidy quiet (if decide (thorough = 0) then 2 else 4)).
Proof.
  unfold compare_entries.
  apply emits_bind, emits_load_entry. intros f.
  apply emits_bind, emits_load_entry. intros s.
  destruct (bool_decide (size f ≠ size s)).
  { apply emits_ret. unfold tidy. tally. destruct (decide _); repeat split; lia. }
  apply emits_bind,
    (emits_conseq _ _ _ _ _ (emits_compare_entry_checksums first second)).
  intros r evs (Hc & Ho & Hw & Hr).
  destruct (decide (r = 0)) as [->|Hne].
  2: { rewrite bool_decide_eq_true_2 by done. apply emits_ret.
       unfold tidy. tally. destruct (decide _); repeat split; lia. }
  destruct Hr as [Hw0 Hf0]; [done|]. simpl.
  apply emits_bind, emits_thorough_flag.
  destruct (decide (thorough = 0)) as [->|Ht].
  { simpl. apply emits_ret. unfold tidy. tally. repeat split; lia. }
  rewrite bool_decide_eq_true_2 by done.
  apply emits_bind,
    (emits_conseq _ _ _ _ _ (emits_compare_entry_contents first second)).
  intros r' evs' ((Hc' & Ho' & Hw' & Hr') & Hw0').
  destruct (decide (r' = 0)) as [->|Hne].
  - destruct Hr' as [_ Hf0']; [done|]. simpl.
    apply emits_ret. unfold tidy. tally. repeat split; lia.
  - rewrite bool_decide_eq_true_2 by done.
    apply emits_ret. unfold tidy. tally. repeat split; lia.
Qed.

(** [make_entry] and [copy_entry] leave the trace and the flags alone. *)
Lemma emits_make_entry name sz :
  emits quiet thorough (make_entry name sz) (λ _ evs, evs = []).
Proof.
  intros w a w' Hq Ht Hrun.
  destruct (make_entry_run name sz w)
    as (p & p2 & w1 & Hrun' & _ & _ & _ & _ & _ & Htr & Hq' & Ht').
  rewrite Hrun in Hrun'. injection Hrun' as -> ->.
  split; [congruence|]. split; [congruence|].
  exists []. by rewrite app_nil_r.
Qed.

Lemma copy_entry_defined entry a w w' :
  copy_entry entry w = Some (a, w') → ∃ e s, entry_at w entry e s.
Proof.
  unfold copy_entry, malloc, alloc.
  rewrite bind_run. simpl. rewrite bind_run. unfold load_entry at 1. simpl.
  destruct (decide (fresh (dom (heap w)) = entry)) as [<-|Hne];
    [by rewrite lookup_insert_eq|].
  rewrite lookup_insert_ne by done.
  destruct (heap w !! entry) as [[|e|]|] eqn:He; try done.
  rewrite bind_run. unfold load_string at 1. simpl.
  destruct (decide (fresh (dom (heap w)) = path e)) as [<-|Hne'];
    [by rewrite lookup_insert_eq|].
  rewrite lookup_insert_ne by done.
  destruct (heap w !! path e) as [[| |s]|] eqn:Hs; try done.
  intros _. by exists e, s.
Qed.

Lemma emits_copy_entry entry :
  emits quiet thorough (copy_entry entry) (λ _ evs, evs = []).
Proof.
  intros w a w' Hq Ht Hrun.
  destruct (copy_entry_defined entry a w w' Hrun) as (e & s & Hat).
  destruct (copy_entry_run entry e s w Hat)
    as (p & p2 & w1 & Hrun' & _ & _ & _ & _ & _ & Htr & Hq' & Ht').
  rewrite Hrun in Hrun'. injection Hrun' as -> ->.
  split; [congruence|]. split; [congruence|].
  exists []. by rewrite app_nil_r.
Qed.

(** Every call closes the files it has opened, and gives at most one
    warning. *)
Lemma emits_run_call c :
  emits quiet thorough (run_call c)
    (λ _ evs, count_events is_close evs = count_events is_open_ok evs ∧
              (count_events is_warning evs ≤ reports quiet)%nat).
Proof.
  destruct c; simpl; apply emits_bind.
  - eapply emits_conseq; [apply emits_make_entry|].
    intros _ evs ->. apply emits_ret. tally. lia.
  - eapply emits_conseq; [apply emits_copy_entry|].
    intros _ evs ->. apply emits_ret. tally. lia.
  - eapply emits_conseq; [apply emits_get_entry_checksum|].
    intros r evs (? & ? & ? & ?). apply emits_ret. tally. lia.
  - eapply emits_conseq; [apply emits_compare_entry_checksums|].
    intros r evs (? & ? & ? & ?). apply emits_ret. tally. lia.
  - eapply emits_conseq; [apply emits_compare_entry_contents|].
    intros r evs ((? & ? & ? & ?) & ?). apply emits_ret. tally. lia.
  - eapply emits_conseq; [apply emits_compare_entries|].
    intros r evs (? & ? & ? & ?). apply emits_ret. tally. lia.
Qed.

Lemma emits_run_calls cs :
  emits quiet thorough (run_calls cs)
    (λ _ evs, count_events is_close evs = count_events is_open_ok evs ∧
              (count_events is_warning evs ≤ length cs * reports quiet)%nat).
Proof.
  induction cs as [|c cs IH]; simpl.
  - apply emits_ret. tally. lia.
  - apply emits_bind.
    eapply emits_conseq; [apply emits_run_call|].
    intros _ evs [Hc Hw].
    eapply emits_conseq; [apply IH|].
    intros _ evs' [Hc' Hw']. tally. lia.
Qed.

End Traces.

(** ** Which streams the calls close *)

Lemma streams_nil open : streams [] open = Some open.
Proof. done. Qed.

Lemma streams_app evs evs' open open' open'' :
  streams evs open = Some open' →
  streams evs' open' = Some open'' →
  streams (evs ++ evs') open = Some open''.
Proof.
  revert open. induction evs as [|ev evs IH]; simpl; intros open.
  - by intros [= ->].
  - destruct (stream_step open ev); [apply IH|done].
Qed.

Lemma streams_cons ev evs open open' open'' :
  streams [ev] open = Some open' →
  streams evs open' = Some open'' →
  streams (ev :: evs) open = Some open''.
Proof. apply (streams_app [ev]). Qed.

Lemma streams_eq evs open open' open'' :
  streams evs open = Some open' → open' = open'' →
  streams evs open = Some open''.
Proof. by intros ? <-. Qed.

Lemma streams_open name open :
  streams [EvOpen name true] open = Some (open ⊎ {[+ name +]}).
Proof. done. Qed.

Lemma streams_open_failed name open :
  streams [EvOpen name false] open = Some open.
Proof. done. Qed.

Lemma streams_warning name open :
  streams [EvWarning name] open = Some open.
Proof. done. Qed.

Lemma streams_read name k open :
  name ∈ open → streams [EvRead name k] open = Some open.
Proof. intros Hin. simpl. by rewrite decide_True. Qed.

Lemma streams_close name open :
  name ∈ open → streams [EvClose name] open = Some (open ∖ {[+ name +]}).
Proof. intros Hin. simpl. by rewrite decide_True. Qed.

(** A stream is closed at most as often as it is open. *)
Lemma streams_close_closed name open :
  name ∉ open → streams [EvClose name] open = None.
Proof. intros Hin. simpl. by rewrite decide_False. Qed.

Lemma balanced_nil : balanced [].
Proof. by intros open. Qed.

Lemma balanced_app evs evs' :
  balanced evs → balanced evs' → balanced (evs ++ evs').
Proof. intros Hb Hb' open. eapply streams_app; [apply Hb|apply Hb']. Qed.

Lemma stream_step_counts (open : gmultiset string) ev open' :
  stream_step open ev = Some open' →
  (base.size open' + count_events is_close [ev] =
   base.size open + count_events is_open_ok [ev])%nat.
Proof.
  rewrite !count_events_one.
  destruct ev as [name []|name k|name|name]; simpl.
  - intros [= <-].
    rewrite gmultiset_size_disj_union, gmultiset_size_singleton. lia.
  - intros [= <-]. lia.
  - destruct (decide (name ∈ open)); intros [= <-]. lia.
  - destruct (decide (name ∈ open)) as [Hin|]; intros [= <-].
    apply gmultiset_singleton_subseteq_l in Hin.
    rewrite (gmultiset_size_difference open {[+ name +]}) by done.
    apply gmultiset_subseteq_size in Hin.
    rewrite gmultiset_size_singleton in *. lia.
  - intros [= <-]. lia.
Qed.

(** Events that use streams properly hold as many closes as successful
    opens. *)
Lemma streams_counts evs : ∀ open open',
  streams evs open = Some open' →
  (base.size open' + count_events is_close evs =
   base.size open + count_events is_open_ok evs)%nat.
Proof.
  induction evs as [|ev evs IH]; simpl; intros open open'.
  - intros [= <-]. rewrite !count_events_nil. lia.
  - destruct (stream_step open ev) as [open1|] eqn:Hstep; [|done].
    intros Hrest. apply IH in Hrest. apply stream_step_counts in Hstep.
    rewrite !(count_events_cons _ ev). rewrite !count_events_one in Hstep.
    lia.
Qed.

Lemma balanced_counts evs :
  balanced evs → count_events is_close evs = count_events is_open_ok evs.
Proof. intros Hb. pose proof (streams_counts evs ∅ ∅ (Hb ∅)). lia. Qed.

Section StreamRules.
Variables quiet thorough : Z.

(** The stream that [fopen] returns goes by the name it was opened under,
    and reading from a stream leaves its name alone. *)
Lemma emits_fopen_named name (Q : option FILE → list Event → Prop) :
  Q None [EvOpen name false] →
  (∀ file, f_name file = name → Q (Some file) [EvOpen name true]) →
  emits quiet thorough (fopen name) Q.
Proof.
  intros HQ1 HQ2 w a w' Hq Ht. unfold fopen.
  destruct (files w !! name); intros [= <- <-];
    (do 2 (split; [done|])); eexists; split; try done.
  by apply HQ2.
Qed.

Lemma emits_fread_named n file (Q : list byte * FILE → list Event → Prop) :
  (∀ buffer file' k,
     f_name file' = f_name file → Q (buffer, file') [EvRead (f_name file) k]) →
  emits quiet thorough (fread n file) Q.
Proof.
  intros HQ w a w' Hq Ht [= <- <-]. do 2 (split; [done|]).
  eexists. split; [done|]. by apply HQ.
Qed.

Lemma emits_fgetc_named file (Q : Z * FILE → list Event → Prop) :
  (∀ c file' k,
     f_name file' = f_name file → Q (c, file') [EvRead (f_name file) k]) →
  emits quiet thorough (fgetc file) Q.
Proof.
  intros HQ w a w' Hq Ht. unfold fgetc.
  destruct (f_rest file); intros [= <- <-];
    (do 2 (split; [done|])); eexists; (split; [done|]); by apply HQ.
Qed.

End StreamRules.

(** Follows the open streams along a list of events. *)
Ltac stream_event :=
  first
    [ apply streams_nil
    | apply streams_open
    | apply streams_open_failed
    | apply streams_warning
    | apply streams_read; multiset_solver
    | apply streams_close; multiset_solver
    | match goal with
      | Hs : _ |- streams _ _ = _ => apply Hs; multiset_solver
      end ].

Ltac stream_walk :=
  repeat match goal with
         | |- streams (_ ++ _) _ = _ => eapply streams_app; [stream_event|]
         | |- streams (_ :: _ :: _) _ = _ =>
             eapply streams_cons; [stream_event|]
         | |- streams (_ :: _ ++ _) _ = _ =>
             eapply streams_cons; [stream_event|]
         end.

Ltac stream_run :=
  stream_walk; eapply streams_eq; [stream_event|try done; multiset_solver].

Section Streams.
Context `{SHA1}.
Variables quiet thorough : Z.

Lemma balanced_report entry :
  emits quiet thorough (report entry) (λ _ evs, balanced evs).
Proof.
  unfold report. apply emits_bind, emits_quiet_flag.
  destruct (bool_decide (quiet = 0)); simpl.
  - apply emits_bind, emits_load_entry. intros e.
    apply emits_bind, emits_load_string. intros s.
    apply emits_warning. intros open. stream_run.
  - apply emits_ret. intros open. stream_run.
Qed.

(** The loop reads from the stream it was given, and has closed it when
    it leaves the function. *)
Lemma streams_checksum_loop fuel entry : ∀ file context,
  emits quiet thorough (checksum_loop fuel entry file context)
    (λ r evs, ∀ open, f_name file ∈ open →
       streams evs open =
         Some (if r is None then open ∖ {[+ f_name file +]} else open)).
Proof.
  induction fuel as [|fuel IH]; intros file context; [apply emits_stuck|].
  rewrite checksum_loop_unfold.
  apply emits_bind, emits_fread_named. intros buffer file' k Hname.
  destruct (ferror file').
  - apply emits_bind, emits_fclose.
    apply emits_bind, (emits_conseq _ _ _ _ _ (balanced_report entry)).
    intros _ evs Hb.
    apply emits_bind, emits_set_status. apply emits_ret.
    intros open Hin. rewrite Hname. stream_run.
  - destruct (bool_decide (length buffer = 0%nat)).
    + apply emits_ret. intros open Hin. stream_run.
    + eapply emits_conseq; [apply IH|].
      intros r evs Hs open Hin. rewrite Hname in Hs. stream_run.
Qed.

Lemma balanced_get_entry_checksum entry :
  emits quiet thorough (get_entry_checksum entry) (λ _ evs, balanced evs).
Proof.
  unfold get_entry_checksum.
  apply emits_bind, emits_load_entry. intros e.
  destruct (bool_decide (status e = INVALID)).
  { apply emits_ret. intros open. stream_run. }
  destruct (bool_decide (status e ≠ UNTOUCHED)).
  { apply emits_ret. intros open. stream_run. }
  apply emits_bind, emits_load_string. intros s.
  apply emits_bind, emits_fopen_named.
  - apply emits_bind, (emits_conseq _ _ _ _ _ (balanced_report entry)).
    intros _ evs Hb.
    apply emits_bind, emits_set_status. apply emits_ret.
    intros open. stream_run.
  - intros file Hname.
    apply emits_bind,
      (emits_conseq _ _ _ _ _ (streams_checksum_loop _ _ _ _)).
    intros [context|] evs Hs; rewrite Hname in Hs.
    + apply emits_bind, emits_fclose. rewrite Hname.
      apply emits_bind, emits_load_entry. intros e'.
      apply emits_bind, emits_store_entry.
      apply emits_bind, emits_set_status. apply emits_ret.
      intros open. stream_run.
    + apply emits_ret. intros open. stream_run.
Qed.

(** The loop reads from the two streams it was given, and closes
    neither. *)
Lemma streams_contents_loop fuel : ∀ first_stream second_stream,
  emits quiet thorough (contents_loop fuel first_stream second_stream)
    (λ _ evs, ∀ open,
       f_name first_stream ∈ open → f_name second_stream ∈ open →
       streams evs open = Some open).
Proof.
  induction fuel as [|fuel IH]; intros f s; [apply emits_stuck|].
  rewrite contents_loop_unfold.
  apply emits_bind, emits_fgetc_named. intros fc f' k Hf.
  apply emits_bind, emits_fgetc_named. intros sc s' k' Hs.
  destruct (bool_decide (fc ≠ sc));
    [apply emits_ret; intros open Hin1 Hin2; stream_run|].
  destruct (bool_decide (fc ≠ EOF));
    [|apply emits_ret; intros open Hin1 Hin2; stream_run].
  eapply emits_conseq; [apply IH|].
  intros r evs Hloop open Hin1 Hin2. rewrite Hf, Hs in Hloop.
  stream_walk. by apply Hloop.
Qed.

(** The byte-exact stage closes each of the streams it has opened, the
    first and the second, on every way out. *)
Lemma balanced_compare_entry_contents first second :
  emits quiet thorough (compare_entry_contents first second)
    (λ _ evs, balanced evs).
Proof.
  unfold compare_entry_contents.
  apply emits_bind, emits_load_entry. intros f.
  apply emits_bind, emits_load_string. intros fs.
  apply emits_bind, emits_fopen_named; [|intros first_stream Hf];
    (apply emits_bind, emits_load_entry; intros s);
    (apply emits_bind, emits_load_string; intros ss);
    (apply emits_bind, emits_fopen_named; [|intros second_stream Hs]); simpl.
  - apply emits_bind, emits_ret, emits_bind, emits_ret, emits_ret.
    intros open. stream_run.
  - apply emits_bind, emits_ret, emits_bind, emits_fclose, emits_ret.
    rewrite Hs. intros open. stream_run.
  - apply emits_bind, emits_fclose, emits_bind, emits_ret, emits_ret.
    rewrite Hf. intros open. stream_run.
  - apply emits_bind,
      (emits_conseq _ _ _ _ _ (streams_contents_loop _ _ _)).
    rewrite Hf, Hs. intros r evs Hloop.
    apply emits_bind, emits_fclose, emits_bind, emits_fclose, emits_ret.
    rewrite Hf, Hs. intros open. stream_run.
Qed.

Lemma balanced_compare_entry_checksums first second :
  emits quiet thorough (compare_entry_checksums first second)
    (λ _ evs, balanced evs).
Proof.
  unfold compare_entry_checksums.
  apply emits_bind,
    (emits_conseq _ _ _ _ _ (balanced_get_entry_checksum first)).
  intros r evs Hb.
  destruct (bool_decide (r ≠ 0));
    [apply emits_ret; intros open; stream_run|].
  apply emits_bind,
    (emits_conseq _ _ _ _ _ (balanced_get_entry_checksum second)).
  intros r' evs' Hb'.
  destruct (bool_decide (r' ≠ 0));
    [apply emits_ret; intros open; stream_run|].
  apply emits_bind, emits_load_entry. intros f.
  apply emits_bind, emits_load_entry. intros s.
  apply emits_ret. intros open. stream_run.
Qed.

Lemma balanced_compare_entries first second :
  emits quiet thorough (compare_entries first second) (λ _ evs, balanced evs).
Proof.
  unfold compare_entries.
  apply emits_bind, emits_load_entry. intros f.
  apply emits_bind, emits_load_entry. intros s.
  destruct (bool_decide (size f ≠ size s));
    [apply emits_ret; intros open; stream_run|].
  apply emits_bind,
    (emits_conseq _ _ _ _ _ (balanced_compare_entry_checksums first second)).
  intros r evs Hb.
  destruct (bool_decide (r ≠ 0));
    [apply emits_ret; intros open; stream_run|].
  apply emits_bind, emits_thorough_flag.
  destruct (bool_decide (thorough ≠ 0));
    [|apply emits_ret; intros open; stream_run].
  apply emits_bind,
    (emits_conseq _ _ _ _ _ (balanced_compare_entry_contents first second)).
  intros r' evs' Hb'.
  destruct (bool_decide (r' ≠ 0)); apply emits_ret; intros open; stream_run.
Qed.

Lemma balanced_run_call c :
  emits quiet thorough (run_call c) (λ _ evs, balanced evs).
Proof.
  destruct c; simpl; apply emits_bind.
  - eapply emits_conseq; [apply emits_make_entry|].
    intros _ evs ->. apply emits_ret. intros open. stream_run.
  - eapply emits_conseq; [apply emits_copy_entry|].
    intros _ evs ->. apply emits_ret. intros open. stream_run.
  - eapply emits_conseq; [apply balanced_get_entry_checksum|].
    intros r evs Hb. apply emits_ret. intros open. stream_run.
  - eapply emits_conseq; [apply balanced_compare_entry_checksums|].
    intros r evs Hb. apply emits_ret. intros open. stream_run.
  - eapply emits_conseq; [apply balanced_compare_entry_contents|].
    intros r evs Hb. apply emits_ret. intros open. stream_run.
  - eapply emits_conseq; [apply balanced_compare_entries|].
    intros r evs Hb. apply emits_ret. intros open. stream_run.
Qed.

Lemma balanced_run_calls cs :
  emits quiet thorough (run_calls cs) (λ _ evs, balanced evs).
Proof.
  induction cs as [|c cs IH]; simpl.
  - apply emits_ret, balanced_nil.
  - apply emits_bind.
    eapply emits_conseq; [apply balanced_run_call|].
    intros u evs Hb.
    eapply emits_conseq; [apply IH|].
    intros u' evs' Hb'. by apply balanced_app.
Qed.

End Streams.

Section TraceProperties.
Context `{SHA1}.

(** X12. Whatever sequence of calls is run, the streams are used properly
    and none is left open: in the events of the calls, followed from any set
    of open streams, each read and each close is of a stream that is open at
    that point, under the name it was opened under, and the streams open in
    the end are those open at the start.  So every stream that a call has
    opened has been closed, once, by the time the calls have returned, on
    every exit path; in particular there are as many closes as successful
    opens. *)
Theorem run_calls_close_files cs w w' :
  run_calls cs w = Some (tt, w') →
  ∃ evs, trace w' = trace w ++ evs ∧
    (∀ open, streams evs open = Some open) ∧
    count_events is_close evs = count_events is_open_ok evs.
Proof.
  intros Hrun.
  destruct (balanced_run_calls (quiet_flag w) (thorough_flag w) cs w tt w')
    as (_ & _ & evs & Htr & Hb); [done..|].
  exists evs. split; [done|]. split; [exact Hb|]. by apply balanced_counts.
Qed.

(** X13. Warnings are given only with [quiet_flag] off, and at most one
    per call. *)
Theorem run_calls_warnings cs w w' :
  run_calls cs w = Some (tt, w') →
  ∃ evs, trace w' = trace w ++ evs ∧
    (count_events is_warning evs ≤ length cs)%nat ∧
    (quiet_flag w ≠ 0 → count_events is_warning evs = 0%nat).
Proof.
  intros Hrun.
  destruct (emits_run_calls (quiet_flag w) (thorough_flag w) cs w tt w')
    as (_ & _ & evs & Htr & _ & Hw); [done..|].
  exists evs. split; [done|]. unfold reports in Hw.
  destruct (decide (quiet_flag w = 0)); split; try done; lia.
Qed.

(** X14. A call of [compare_entries] tries to open at most four files, and
    at most two without [thorough_flag].  It gives at most one warning, and
    when it returns 0 it has given none and every [fopen] has succeeded. *)
Theorem compare_entries_effort p q e1 s1 e2 s2 w :
  entry_at w p e1 s1 →
  entry_at w q e2 s2 →
  ∃ r w' evs,
    compare_entries p q w = Some (r, w') ∧
    trace w' = trace w ++ evs ∧
    (count_opens evs ≤ 4)%nat ∧
    (thorough_flag w = 0 → (count_opens evs ≤ 2)%nat) ∧
    (count_events is_warning evs ≤ 1)%nat ∧
    (r = 0 → count_events is_warning evs = 0%nat ∧
             count_events is_open_failed evs = 0%nat).
Proof.
  intros Hat1 Hat2.
  destruct (compare_entries_run p q e1 s1 e2 s2 w) as (w' & Hrun & _);
    [done..|].
  destruct (emits_compare_entries (quiet_flag w) (thorough_flag w) p q
              w _ w' eq_refl eq_refl Hrun)
    as (_ & _ & evs & Htr & _ & Ho & Hw & Hr).
  eexists _, w', evs. split; [exact Hrun|]. split; [done|].
  unfold reports in Hw.
  destruct (decide (thorough_flag w = 0)), (decide (quiet_flag w = 0));
    repeat split; try done; try lia; by apply Hr.
Qed.

(** X15. The byte-exact stage is silent and closes its streams:
    [compare_entry_contents] gives no warning, not even with [quiet_flag]
    off when a file cannot be opened; it reads from and closes only streams
    that are open, and each stream it has opened, the first and the second,
    it has closed, once, when it returns: the open streams are the same
    before and after the call. *)
Theorem compare_entry_contents_silent p q e1 s1 e2 s2 w :
  entry_at w p e1 s1 →
  entry_at w q e2 s2 →
  ∃ r evs,
    compare_entry_contents p q w = Some (r, log_all evs w) ∧
    count_events is_warning evs = 0%nat ∧
    (∀ open, streams evs open = Some open) ∧
    count_events is_close evs = count_events is_open_ok evs.
Proof.
  intros Hat1 Hat2.
  destruct (compare_entry_contents_run p q e1 s1 e2 s2 w)
    as (evs & _ & Hrun); [done..|].
  destruct (emits_compare_entry_contents (quiet_flag w) (thorough_flag w) p q
              w _ _ eq_refl eq_refl Hrun)
    as (_ & _ & evs' & Htr & (Hc & _) & Hw).
  destruct (balanced_compare_entry_contents (quiet_flag w) (thorough_flag w)
              p q w _ _ eq_refl eq_refl Hrun)
    as (_ & _ & evs'' & Htr' & Hb).
  simpl in Htr, Htr'.
  apply app_inv_head in Htr as <-. apply app_inv_head in Htr' as <-.
  by eexists _, evs.
Qed.

End TraceProperties.

(** ** Cached digests do not change verdicts *)

Section Tracking.
Context `{SHA1}.
Variable fs : gmap string File.
Variable p : loc.
Variable e : Entry.
Variable s : string.

Lemma keeps_ret {A} (a : A) : keeps fs p e s (mret a).
Proof. by intros w a' w' Htr [= <- <-]. Qed.

Lemma keeps_bind {A B} (m : M A) (k : A → M B) :
  keeps fs p e s m → (∀ a, keeps fs p e s (k a)) → keeps fs p e s (m ≫= k).
Proof.
  intros Hm Hk w b w' Htr. rewrite bind_run.
  destruct (m w) as [[a w1]|] eqn:Hmw; [|done]. intros Hkw.
  eapply Hk; [|done]. by eapply Hm.
Qed.

Lemma keeps_stuck {A} : keeps fs p e s (@stuck A).
Proof. by intros w a w'. Qed.

Lemma keeps_gets {A} (f : World → A) : keeps fs p e s (gets f).
Proof. by intros w a w' Htr [= <- <-]. Qed.

Lemma keeps_load_entry q : keeps fs p e s (load_entry q).
Proof.
  intros w a w' Htr. unfold load_entry.
  by destruct (heap w !! q) as [[]|]; intros [= <- <-].
Qed.

Lemma keeps_load_string q : keeps fs p e s (load_string q).
Proof.
  intros w a w' Htr. unfold load_string.
  by destruct (heap w !! q) as [[]|]; intros [= <- <-].
Qed.

Lemma keeps_log ev : keeps fs p e s (modify (log ev)).
Proof. by intros w a w' Htr [= <- <-]. Qed.

Lemma keeps_fclose file : keeps fs p e s (fclose file).
Proof. apply keeps_log. Qed.

Lemma keeps_fclose_if_open (stream : option FILE) :
  keeps fs p e s (from_option fclose (mret tt) stream).
Proof. destruct stream; [apply keeps_fclose|apply keeps_ret]. Qed.

Lemma keeps_fopen name : keeps fs p e s (fopen name).
Proof.
  intros w a w' Htr. unfold fopen.
  by destruct (files w !! name); intros [= <- <-].
Qed.

Lemma keeps_fgetc file : keeps fs p e s (fgetc file).
Proof.
  intros w a w' Htr. unfold fgetc.
  by destruct (f_rest file); intros [= <- <-].
Qed.

Create HintDb keeps.

#[local] Hint Resolve keeps_ret keeps_stuck keeps_gets keeps_load_entry
  keeps_load_string keeps_log keeps_fclose keeps_fclose_if_open keeps_fopen
  keeps_fgetc : keeps.

Ltac solve_keeps :=
  repeat first
    [ solve [auto with keeps]
    | apply keeps_bind; [|intros ?]
    | match goal with
      | |- keeps _ _ _ _ (match ?x with _ => _ end) => destruct x
      end ].

Lemma keeps_contents_loop fuel : ∀ first_stream second_stream,
  keeps fs p e s (contents_loop fuel first_stream second_stream).
Proof.
  induction fuel as [|fuel IH]; intros f1 f2; [apply keeps_stuck|].
  rewrite contents_loop_unfold. solve_keeps.
Qed.

Lemma keeps_compare_entry_contents first second :
  keeps fs p e s (compare_entry_contents first second).
Proof.
  pose proof keeps_contents_loop.
  unfold compare_entry_contents. solve_keeps.
Qed.

Lemma keeps_get_entry_checksum q : keeps fs p e s (get_entry_checksum q).
Proof.
  intros w r w' (Hfs & Hs & Hp) Hrun.
  destruct (get_entry_checksum_defined q r w w' Hrun) as (eq & sq & Hq & Hsq).
  destruct (get_entry_checksum_evolves q eq sq w)
    as (w1 & Hrun' & Hq' & Hframe & Hev); [done..|].
  rewrite Hrun in Hrun'. injection Hrun' as _ <-.
  assert (q ≠ path e) as Hne by congruence.
  split; [by destruct Hev as [-> _]|].
  split; [by rewrite Hframe|].
  destruct (decide (q = p)) as [->|Hqp]; [|by rewrite Hframe].
  rewrite Hq'. right. do 2 f_equal.
  destruct Hp as [Hp|Hp]; rewrite Hq in Hp; injection Hp as ->.
  - destruct (status e) eqn:Hst.
    + specialize (Hsq eq_refl). rewrite Hs in Hsq. injection Hsq as <-.
      by rewrite Hfs.
    + unfold checksummed. by rewrite Hst.
    + unfold checksummed. by rewrite Hst.
  - apply checksummed_idem.
Qed.

Lemma keeps_fresh {A} (m : M A) :
  (∀ w a w', m w = Some (a, w') →
     files w' = files w ∧
     ∀ x b, heap w !! x = Some b → heap w' !! x = Some b) →
  keeps fs p e s m.
Proof.
  intros Hm w a w' (Hfs & Hs & Hp) Hrun.
  destruct (Hm w a w' Hrun) as [Hf Hh].
  split; [congruence|]. split; [by apply Hh|].
  destruct Hp as [Hp|Hp]; [left|right]; by apply Hh.
Qed.

Lemma keeps_make_entry name sz : keeps fs p e s (make_entry name sz).
Proof.
  apply keeps_fresh. intros w a w' Hrun.
  destruct (make_entry_run name sz w)
    as (q & q2 & w1 & Hrun' & Hq & Hq2 & _ & Hh & Hf & _).
  rewrite Hrun in Hrun'. injection Hrun' as -> ->.
  split; [done|]. intros x b Hx.
  rewrite Hh, !lookup_insert_ne by congruence. done.
Qed.

Lemma keeps_copy_entry entry : keeps fs p e s (copy_entry entry).
Proof.
  apply keeps_fresh. intros w a w' Hrun.
  destruct (copy_entry_defined entry a w w' Hrun) as (e0 & s0 & Hat).
  destruct (copy_entry_run entry e0 s0 w Hat)
    as (q & q2 & w1 & Hrun' & Hq & Hq2 & _ & Hh & Hf & _).
  rewrite Hrun in Hrun'. injection Hrun' as -> ->.
  split; [done|]. intros x b Hx.
  rewrite Hh, !lookup_insert_ne by congruence. done.
Qed.

#[local] Hint Resolve keeps_compare_entry_contents keeps_get_entry_checksum
  keeps_make_entry keeps_copy_entry : keeps.

Lemma keeps_compare_entry_checksums first second :
  keeps fs p e s (compare_entry_checksums first second).
Proof. unfold compare_entry_checksums. solve_keeps. Qed.

#[local] Hint Resolve keeps_compare_entry_checksums : keeps.

Lemma keeps_compare_entries first second :
  keeps fs p e s (compare_entries first second).
Proof. unfold compare_entries. solve_keeps. Qed.

#[local] Hint Resolve keeps_compare_entries : keeps.

Lemma keeps_run_calls cs : keeps fs p e s (run_calls cs).
Proof.
  induction cs as [|c cs IH]; simpl; [apply keeps_ret|].
  apply keeps_bind; [|done]. destruct c; simpl; solve_keeps.
Qed.

End Tracking.

Section CacheProperties.
Context `{SHA1}.

(** X16. The cache of digests is transparent.  The verdict of
    [compare_entries] on two entries is the same whether the comparison is
    made at once or after any sequence of other calls ([make_entry],
    [copy_entry], [get_entry_checksum] and the three comparisons, on these
    or on other entries): what earlier calls have stored in the entries
    never changes a later verdict. *)
Theorem compare_entries_after_calls cs p q e1 s1 e2 s2 w w1 :
  entry_at w p e1 s1 →
  entry_at w q e2 s2 →
  run_calls cs w = Some (tt, w1) →
  ∃ r w' w1',
    compare_entries p q w = Some (r, w') ∧
    compare_entries p q w1 = Some (r, w1').
Proof.
  intros Hat1 Hat2 Hcalls.
  assert (tracked (files w) p e1 s1 w1) as (Hfs & Hs1 & Hp).
  { eapply keeps_run_calls; [|done]. split; [done|]. split; [apply Hat1|].
    left. apply Hat1. }
  assert (tracked (files w) q e2 s2 w1) as (_ & Hs2 & Hq).
  { eapply keeps_run_calls; [|done]. split; [done|]. split; [apply Hat2|].
    left. apply Hat2. }
  assert (thorough_flag w1 = thorough_flag w) as Hth
    by (by destruct (mono_run_calls cs w tt w1 Hcalls) as (_ & _ & ? & _)).
  assert (∃ e1', entry_at w1 p e1' s1 ∧
            (e1' = e1 ∨ e1' = checksummed (files w !! s1) e1))
    as (e1' & Hat1' & He1).
  { destruct Hp as [Hp|Hp]; eexists; (split; [split; [exact Hp|]|]);
      rewrite ?path_checksummed; auto. }
  assert (∃ e2', entry_at w1 q e2' s2 ∧
            (e2' = e2 ∨ e2' = checksummed (files w !! s2) e2))
    as (e2' & Hat2' & He2).
  { destruct Hq as [Hq|Hq]; eexists; (split; [split; [exact Hq|]|]);
      rewrite ?path_checksummed; auto. }
  destruct (compare_entries_run p q e1 s1 e2 s2 w) as (w' & Hrun & _);
    [done..|].
  destruct (compare_entries_run p q e1' s1 e2' s2 w1) as (w1' & Hrun1 & _);
    [done..|].
  rewrite Hfs, Hth, (entries_result_cached _ _ _ e1 e2) in Hrun1 by done.
  eauto.
Qed.

End CacheProperties.

(** * The further properties on concrete worlds *)

Lemma free_entry_list_frees_witness :
  ∃ w', free_entry_list (Some ptr_a) world_list = Some (None, w') ∧
    heap w' !! ptr_a = None ∧ heap w' !! ptr_b = None ∧
    heap w' !! 2%positive = None ∧ heap w' !! 4%positive = None ∧
    heap w' !! 5%positive = Some (BString "c").
Proof.
  destruct (free_entry_list_frees (Some ptr_a) list_example world_list)
    as (w' & Hrun & Hh & _).
  - simpl. repeat split; reflexivity.
  - apply (bool_decide_unpack _). vm_compute. exact I.
  - exists w'. split; [exact Hrun|]. rewrite !Hh.
    repeat split; vm_compute; reflexivity.
Defined.

Lemma copy_entry_free_entry_witness :
  ∃ c w1, copy_entry ptr_a world_checksummed = Some (c, w1) ∧
          free_entry c w1 = Some (tt, world_checksummed).
Proof.
  apply (copy_entry_free_entry ptr_a
           (entry_a 2 CHECKSUMMED (sum_digest 195)) "a").
  split; reflexivity.
Defined.

Lemma get_entry_checksum_success_witness :
  ∃ evs, count_opens evs = 1%nat ∧
    get_entry_checksum (H := sum_sha1) ptr_a (world_collision 0) =
      Some (0, upd_entry ptr_a (entry_a 2 CHECKSUMMED (sum_digest 195))
                 (log_all evs (world_collision 0))).
Proof.
  apply (get_entry_checksum_success (H := sum_sha1) ptr_a
           (entry_a 2 UNTOUCHED zero_digest) "a" [Byte.x61; Byte.x62]).
  - split; reflexivity.
  - reflexivity.
  - reflexivity.
Defined.

Lemma byte_sum_app c a b : byte_sum (byte_sum c a) b = byte_sum c (a ++ b).
Proof. unfold byte_sum. by rewrite foldl_app. Qed.

Lemma get_entry_checksum_chunking_witness :
  ∃ w' e', get_entry_checksum (H := sum_sha1) ptr_a (world_collision 0)
             = Some (0, w') ∧
    heap w' !! ptr_a = Some (BEntry e') ∧
    status e' = CHECKSUMMED ∧
    checksum e' = sum_digest (byte_sum 0 [Byte.x61; Byte.x62]).
Proof.
  apply (get_entry_checksum_chunking (H := sum_sha1) ptr_a
           (entry_a 2 UNTOUCHED zero_digest) "a" [Byte.x61; Byte.x62]).
  - intros _. exact byte_sum_app.
  - split; reflexivity.
  - reflexivity.
  - reflexivity.
Defined.

Lemma compare_entry_contents_decides_witness :
  ∃ r evs,
    compare_entry_contents ptr_a ptr_b (world_collision 0)
      = Some (r, log_all evs (world_collision 0)) ∧
    count_opens evs = 2%nat ∧
    (r = 0 ∨ r = -1) ∧
    (r = 0 ↔ ∃ d t1 t2,
       files (world_collision 0) !! "a" = Some (mkFile d t1) ∧
       files (world_collision 0) !! "b" = Some (mkFile d t2)).
Proof.
  apply (compare_entry_contents_decides ptr_a ptr_b
           (entry_a 2 UNTOUCHED zero_digest) "a"
           (entry_b 2 UNTOUCHED zero_digest) "b").
  - split; reflexivity.
  - split; reflexivity.
Defined.

Lemma compare_entries_equal_sound_witness :
  ∃ w' e1' e2',
    compare_entries (H := sum_sha1) ptr_a ptr_b (world_collision 0)
      = Some (0, w') ∧
    heap w' !! ptr_a = Some (BEntry e1') ∧
    heap w' !! ptr_b = Some (BEntry e2') ∧
    status e1' = CHECKSUMMED ∧ status e2' = CHECKSUMMED ∧
    checksum e1' = checksum e2'.
Proof.
  destruct (compare_entries (H := sum_sha1) ptr_a ptr_b (world_collision 0))
    as [[r w']|] eqn:Hrun; [|vm_compute in Hrun; discriminate Hrun].
  assert (r = 0) as ->.
  { vm_compute in Hrun. injection Hrun as <- _. reflexivity. }
  destruct (compare_entries_equal_sound (H := sum_sha1) ptr_a ptr_b
              (entry_a 2 UNTOUCHED zero_digest) "a"
              (entry_b 2 UNTOUCHED zero_digest) "b"
              (world_collision 0) w')
    as (_ & (e1' & e2' & Hfacts) & _).
  - split; reflexivity.
  - split; reflexivity.
  - exact Hrun.
  - exists w', e1', e2'. split; [reflexivity|exact Hfacts].
Defined.

Lemma compare_entries_cached_witness :
  compare_entries (H := sum_sha1) ptr_a ptr_b world_cached
    = Some (0, world_cached).
Proof.
  apply (compare_entries_cached (H := sum_sha1) ptr_a ptr_b
           (entry_a 2 CHECKSUMMED (sum_digest 195))
           (entry_b 2 CHECKSUMMED (sum_digest 195)) world_cached).
  - reflexivity.
  - reflexivity.
  - discriminate.
  - discriminate.
  - reflexivity.
Defined.

Lemma compare_entries_twice_witness :
  ∃ r w1 w2,
    compare_entries (H := sum_sha1) ptr_a ptr_b (world_collision 0)
      = Some (r, w1) ∧
    compare_entries (H := sum_sha1) ptr_a ptr_b w1 = Some (r, w2) ∧
    (thorough_flag (world_collision 0) = 0 → w2 = w1).
Proof.
  apply (compare_entries_twice (H := sum_sha1) ptr_a ptr_b
           (entry_a 2 UNTOUCHED zero_digest) "a"
           (entry_b 2 UNTOUCHED zero_digest) "b").
  - split; reflexivity.
  - split; reflexivity.
Defined.

Lemma compare_entries_frame_witness :
  ∃ r w',
    compare_entries (H := sum_sha1) ptr_a ptr_b world_list = Some (r, w') ∧
    heap w' !! 5%positive = Some (BString "c") ∧
    files w' = files world_list.
Proof.
  destruct (compare_entries_frame (H := sum_sha1) ptr_a ptr_b
              (mkEntry (Some ptr_b) 2%positive 2 UNTOUCHED zero_digest) "a"
              (entry_b 2 CHECKSUMMED (sum_digest 195)) "b" world_list)
    as (r & w' & e1' & e2' & Hrun & Hframe & _ & _ & _ & _ & _ & _ & _ & _
        & Hfiles & _).
  - split; reflexivity.
  - split; reflexivity.
  - exists r, w'. split; [exact Hrun|]. split; [|exact Hfiles].
    rewrite Hframe; [reflexivity|discriminate|discriminate].
Defined.

Lemma compare_entries_empty_files_witness :
  (∃ w' e1' e2',
     compare_entries (H := sum_sha1) ptr_a ptr_b (world_empty_files 0)
       = Some (0, w') ∧
     heap w' !! ptr_a = Some (BEntry e1') ∧
     heap w' !! ptr_b = Some (BEntry e2') ∧
     status e1' = CHECKSUMMED ∧ status e2' = CHECKSUMMED ∧
     checksum e1' = sum_digest 0 ∧ checksum e2' = sum_digest 0) ∧
  (∃ w' e1' e2',
     compare_entries (H := sum_sha1) ptr_a ptr_b (world_empty_files 1)
       = Some (0, w') ∧
     heap w' !! ptr_a = Some (BEntry e1') ∧
     heap w' !! ptr_b = Some (BEntry e2') ∧
     status e1' = CHECKSUMMED ∧ status e2' = CHECKSUMMED ∧
     checksum e1' = sum_digest 0 ∧ checksum e2' = sum_digest 0).
Proof.
  split.
  - apply (compare_entries_empty_files (H := sum_sha1) ptr_a ptr_b
             (entry_a 0 UNTOUCHED zero_digest) "a"
             (entry_b 0 UNTOUCHED zero_digest) "b" (world_empty_files 0));
      try (split; reflexivity); reflexivity.
  - apply (compare_entries_empty_files (H := sum_sha1) ptr_a ptr_b
             (entry_a 0 UNTOUCHED zero_digest) "a"
             (entry_b 0 UNTOUCHED zero_digest) "b" (world_empty_files 1));
      try (split; reflexivity); reflexivity.
Defined.

Lemma run_calls_close_files_witness :
  ∃ w' evs,
    run_calls (H := sum_sha1) calls_example (world_collision 1)
      = Some (tt, w') ∧
    trace w' = trace (world_collision 1) ++ evs ∧
    streams evs ∅ = Some ∅ ∧
    count_events is_close evs = count_events is_open_ok evs.
Proof.
  destruct (run_calls (H := sum_sha1) calls_example (world_collision 1))
    as [[[] w']|] eqn:Hrun; [|vm_compute in Hrun; discriminate Hrun].
  destruct (run_calls_close_files (H := sum_sha1) calls_example
              (world_collision 1) w' Hrun) as (evs & Htr & Hs & Hc).
  exists w', evs. split; [reflexivity|]. split; [exact Htr|].
  split; [exact (Hs ∅)|exact Hc].
Defined.

Lemma run_calls_warnings_witness :
  ∃ w' evs,
    run_calls (H := sum_sha1) calls_example world_unreadable = Some (tt, w') ∧
    trace w' = trace world_unreadable ++ evs ∧
    (count_events is_warning evs ≤ 6)%nat.
Proof.
  destruct (run_calls (H := sum_sha1) calls_example world_unreadable)
    as [[[] w']|] eqn:Hrun; [|vm_compute in Hrun; discriminate Hrun].
  destruct (run_calls_warnings (H := sum_sha1) calls_example
              world_unreadable w' Hrun) as (evs & Htr & Hw & _).
  exists w', evs. split; [reflexivity|]. split; [exact Htr|exact Hw].
Defined.

Lemma compare_entries_effort_witness :
  ∃ r w' evs,
    compare_entries (H := sum_sha1) ptr_a ptr_b (world_collision 1)
      = Some (r, w') ∧
    trace w' = trace (world_collision 1) ++ evs ∧
    (count_opens evs ≤ 4)%nat ∧
    (count_events is_warning evs ≤ 1)%nat.
Proof.
  destruct (compare_entries_effort (H := sum_sha1) ptr_a ptr_b
              (entry_a 2 UNTOUCHED zero_digest) "a"
              (entry_b 2 UNTOUCHED zero_digest) "b" (world_collision 1))
    as (r & w' & evs & Hrun & Htr & Ho & _ & Hw & _).
  - split; reflexivity.
  - split; reflexivity.
  - exists r, w', evs. repeat split; assumption.
Defined.

Lemma compare_entry_contents_silent_witness :
  (∃ evs,
     evs = [EvOpen "a" true; EvOpen "b" true; EvRead "a" 1; EvRead "b" 1;
            EvClose "a"; EvClose "b"] ∧
     compare_entry_contents ptr_a ptr_b (world_collision 1)
       = Some (-1, log_all evs (world_collision 1)) ∧
     count_events is_warning evs = 0%nat ∧
     streams evs ∅ = Some ∅) ∧
  (∃ evs,
     evs = [EvOpen "a" false; EvOpen "b" true; EvClose "b"] ∧
     compare_entry_contents ptr_a ptr_b world_missing
       = Some (-1, log_all evs world_missing) ∧
     count_events is_warning evs = 0%nat ∧
     streams evs ∅ = Some ∅).
Proof.
  split.
  - destruct (compare_entry_contents_silent ptr_a ptr_b
             (entry_a 2 UNTOUCHED zero_digest) "a"
             (entry_b 2 UNTOUCHED zero_digest) "b" (world_collision 1))
      as (r & evs & Hrun & Hw & Hs & _).
    + split; reflexivity.
    + split; reflexivity.
    + exists evs.
      assert (r = -1 ∧ evs = [EvOpen "a" true; EvOpen "b" true;
                EvRead "a" 1; EvRead "b" 1; EvClose "a"; EvClose "b"])
        as [Hr Hevs].
      { vm_compute in Hrun. injection Hrun as Hr Hevs. split; congruence. }
      split; [exact Hevs|]. rewrite <- Hr.
      split; [exact Hrun|]. split; [exact Hw|exact (Hs ∅)].
  - destruct (compare_entry_contents_silent ptr_a ptr_b
             (entry_a 2 UNTOUCHED zero_digest) "a"
             (entry_b 2 UNTOUCHED zero_digest) "b" world_missing)
      as (r & evs & Hrun & Hw & Hs & _).
    + split; reflexivity.
    + split; reflexivity.
    + exists evs.
      assert (r = -1 ∧ evs = [EvOpen "a" false; EvOpen "b" true;
                EvClose "b"]) as [Hr Hevs].
      { vm_compute in Hrun. injection Hrun as Hr Hevs. split; congruence. }
      split; [exact Hevs|]. rewrite <- Hr.
      split; [exact Hrun|]. split; [exact Hw|exact (Hs ∅)].
Defined.

Lemma compare_entries_after_calls_witness :
  ∃ w1 r w' w1',
    run_calls (H := sum_sha1) calls_example (world_collision 1)
      = Some (tt, w1) ∧
    compare_entries (H := sum_sha1) ptr_a ptr_b (world_collision 1)
      = Some (r, w') ∧
    compare_entries (H := sum_sha1) ptr_a ptr_b w1 = Some (r, w1').
Proof.
  destruct (run_calls (H := sum_sha1) calls_example (world_collision 1))
    as [[[] w1]|] eqn:Hrun; [|vm_compute in Hrun; discriminate Hrun].
  destruct (compare_entries_after_calls (H := sum_sha1) calls_example
              ptr_a ptr_b
              (entry_a 2 UNTOUCHED zero_digest) "a"
              (entry_b 2 UNTOUCHED zero_digest) "b"
              (world_collision 1) w1)
    as (r & w' & w1' & Hc1 & Hc2).
  - split; reflexivity.
  - split; reflexivity.
  - exact Hrun.
  - exists w1, r, w', w1'. split; [reflexivity|]. split; assumption.
Defined.
